(** * MeuTeX: the import resolver and the preview pipeline

    A shallow embedding of the compile path of the editor:
    - [resolveLatexImports], [flattenProjectFiles], [findNode] and
      [handleRecompile] of [src/App.tsx] (and of its second revision, which
      looks a file up by key instead of by name);
    - the edits of the project tree ([updateNodeInTree], [handleFileChange],
      [handleToggleFolder], [handleCreateProject]) and the list operations of
      [src/hooks/useProjects.ts];
    - [parseLatexToHtml] of the preview component, block by block.

    JavaScript strings are modelled as [string] (characters below 256), the
    [Set<string>] of visited files as [gset string], a [Record<string, T>] as
    the list of its entries in enumeration order, and every
    [String.prototype.replace(regex, callback)] as a scan of the text into
    literal characters and matches followed by a fold of the callback.

    Part I holds the program, Part II the vocabulary in which its properties
    are stated, Part III the lemmas and theorems. *)

From Stdlib Require Import String Ascii List Arith Lia Bool DecimalString.
From stdpp Require Import base option list gmap strings.

#[local] Set Warnings "-register-all,-clear-no-such-hyp".

Local Open Scope list_scope.
Local Open Scope stdpp_scope.

(** * Part I: the program *)

(** ** JavaScript string primitives *)

Module JsString.

(** The line feed of the template literals. *)
Definition nl : string := String (ascii_of_nat 10) EmptyString.

(** The double quote of the HTML attributes. *)
Definition dq : string := String (ascii_of_nat 34) EmptyString.

(** [s.startsWith(p)], returning what follows the prefix. *)
Fixpoint strip_prefix (p s : string) : option string :=
  match p with
  | EmptyString => Some s
  | String a p' =>
      match s with
      | EmptyString => None
      | String b s' => if Ascii.eqb a b then strip_prefix p' s' else None
      end
  end.

Definition startsWith (s p : string) : bool :=
  match strip_prefix p s with Some _ => true | None => false end.

(** [hay.includes(needle)]. *)
Fixpoint includes (hay needle : string) : bool :=
  startsWith hay needle ||
  match hay with
  | EmptyString => false
  | String _ hay' => includes hay' needle
  end.

(** [s.endsWith(suffix)]. *)
Fixpoint endsWith (s suffix : string) : bool :=
  String.eqb s suffix ||
  match s with
  | EmptyString => false
  | String _ s' => endsWith s' suffix
  end.

(** [s.split(sep).pop()]: what follows the last separator. *)
Fixpoint split_pop (sep : ascii) (s : string) : string :=
  match s with
  | EmptyString => EmptyString
  | String c s' =>
      if includes s' (String sep EmptyString) then split_pop sep s'
      else if Ascii.eqb c sep then s' else s
  end.

(** [a || b] on strings: the empty string is falsy. *)
Definition or_else (a b : string) : string :=
  match a with EmptyString => b | _ => a end.

(** Truthiness of an optional string field ([undefined] and [''] are falsy). *)
Definition truthy (o : option string) : bool :=
  match o with
  | Some (String _ _) => true
  | _ => false
  end.

(** Number to string, for the counters of the headings. *)
Definition of_nat (n : nat) : string := NilEmpty.string_of_uint (Nat.to_uint n).

(** The longest prefix free of [stop], and what follows it. *)
Fixpoint span_not (stop : ascii) (s : string) : string * string :=
  match s with
  | EmptyString => (EmptyString, EmptyString)
  | String c s' =>
      if Ascii.eqb c stop then (EmptyString, s)
      else let '(a, b) := span_not stop s' in (String c a, b)
  end.

Definition lower_ascii (c : ascii) : ascii :=
  let n := nat_of_ascii c in
  if (65 <=? n) && (n <=? 90) then ascii_of_nat (n + 32) else c.

Fixpoint toLowerCase (s : string) : string :=
  match s with
  | EmptyString => EmptyString
  | String c s' => String (lower_ascii c) (toLowerCase s')
  end.

End JsString.
Import JsString.

(** ** Global regular-expression replacement

    [text.replace(/re/g, callback)] walks the text from left to right.  Where
    the expression matches, the callback receives the whole match and the
    first capture group, and the walk resumes after the match; elsewhere the
    character is copied.  None of the expressions of the program matches the
    empty string (see [import_re_consumes] and the lemmas after it). *)

Module Regex.

Inductive piece : Type :=
| Lit (c : ascii)
| Hit (whole g1 : string).

(** A matcher anchored at the head of its input: the first capture group
    and the text left after the match. *)
Definition matcher : Type := string -> option (string * string).

(** [skip] counts the characters of the current match still to be passed
    (the distance to [lastIndex]). *)
Fixpoint scan_from (m : matcher) (skip : nat) (s : string) : list piece :=
  match s with
  | EmptyString => []
  | String c s' =>
      match skip with
      | S k => scan_from m k s'
      | O =>
          match m s with
          | Some (g, rest) =>
              let len := String.length s - String.length rest in
              Hit (substring 0 len s) g :: scan_from m (len - 1) s'
          | None => Lit c :: scan_from m 0 s'
          end
      end
  end.

Definition scan (m : matcher) (s : string) : list piece := scan_from m 0 s.

(** Replacement with a pure callback. *)
Definition replace (m : matcher) (cb : string -> string -> string) (s : string) : string :=
  foldr (fun p acc =>
           match p with
           | Lit c => String c acc
           | Hit w g => cb w g +:+ acc
           end) EmptyString (scan m s).

(** Replacement with a callback that may fail to return. *)
Definition replace_opt (m : matcher) (cb : string -> string -> option string)
    (s : string) : option string :=
  foldr (fun p acc =>
           match p with
           | Lit c => String c <$> acc
           | Hit w g => out ← cb w g; rest ← acc; Some (out +:+ rest)
           end) (Some EmptyString) (scan m s).

(** Replacement with a callback that reads and writes variables of the
    enclosing function: the state is threaded from left to right. *)
Fixpoint replace_pieces {St : Type} (cb : St -> string -> string -> string * St)
    (ps : list piece) (st : St) : string * St :=
  match ps with
  | [] => (EmptyString, st)
  | Lit c :: ps' =>
      let '(r, st') := replace_pieces cb ps' st in (String c r, st')
  | Hit w g :: ps' =>
      let '(out, st1) := cb st w g in
      let '(r, st') := replace_pieces cb ps' st1 in (out +:+ r, st')
  end.

Definition replace_st {St : Type} (m : matcher)
    (cb : St -> string -> string -> string * St) (s : string) (st : St) : string * St :=
  replace_pieces cb (scan m s) st.

(** [\{([^}]+)\}] *)
Definition brace_group (s : string) : option (string * string) :=
  match s with
  | String "{" s' =>
      match span_not "}" s' with
      | (String c g, String _ rest) => Some (String c g, rest)
      | _ => None
      end
  | _ => None
  end.

(** First alternative, then the second when the first fails. *)
Definition alt (m1 m2 : matcher) : matcher :=
  fun s => match m1 s with Some r => Some r | None => m2 s end.

(** A literal followed by the rest of the expression. *)
Definition lit_then (p : string) (m : matcher) : matcher :=
  fun s => strip_prefix p s ≫= m.

Definition is_line_terminator (c : ascii) : bool :=
  Ascii.eqb c (ascii_of_nat 10) || Ascii.eqb c (ascii_of_nat 13).

(** [.*?\]] followed by [k]: the shortest run of characters of the line
    after which a closing bracket and [k] match. *)
Fixpoint lazy_to_bracket (k : matcher) (s : string) : option (string * string) :=
  match s with
  | EmptyString => None
  | String c s' =>
      match (if Ascii.eqb c "]" then k s' else None) with
      | Some res => Some res
      | None => if is_line_terminator c then None else lazy_to_bracket k s'
      end
  end.

(** [[\s\S]*?] followed by the literal [stop]: the text up to the first
    [stop], and what follows it. *)
Fixpoint until (stop : string) (s : string) : option (string * string) :=
  match strip_prefix stop s with
  | Some rest => Some (EmptyString, rest)
  | None =>
      match s with
      | EmptyString => None
      | String c s' =>
          match until stop s' with
          | Some (g, rest) => Some (String c g, rest)
          | None => None
          end
      end
  end.

End Regex.
Import Regex.

(** ** The expressions of the program *)

(** [/\\(?:input|include)\{([^}]+)\}/] *)
Definition import_re : matcher :=
  lit_then "\" (alt (lit_then "input" brace_group) (lit_then "include" brace_group)).

(** [/\\includegraphics(?:\[.*?\])?\{([^}]+)\}/] *)
Definition includegraphics_re : matcher :=
  lit_then "\includegraphics" (alt (lit_then "[" (lazy_to_bracket brace_group)) brace_group).

(** [/\\chapter\*?\{([^}]+)\}/] and the like. *)
Definition heading_re (directive : string) : matcher :=
  lit_then directive (alt (lit_then "*" brace_group) brace_group).

Definition chapter_re : matcher := heading_re "\chapter".
Definition section_re : matcher := heading_re "\section".
Definition subsection_re : matcher := heading_re "\subsection".

(** [/\$([^$]+)\$/] *)
Definition inline_math_re : matcher :=
  fun s =>
    match s with
    | String "$" s' =>
        match span_not "$" s' with
        | (String c g, String _ rest) => Some (String c g, rest)
        | _ => None
        end
    | _ => None
    end.

(** [/\$\$([\s\S]*?)\$\$/] *)
Definition display_math_re : matcher := lit_then "$$" (until "$$").

(** [/\\\[([\s\S]*?)\\\]/] *)
Definition bracket_math_re : matcher := lit_then "\[" (until "\]").

(** ** The project tree and the log ([types.ts]) *)

Inductive NodeType : Type := file | folder.

Inductive FileNode : Type := mkFileNode {
  id : string;
  name : string;
  type : NodeType;
  content : option string;            (* only for files *)
  children : option (list FileNode);  (* only for folders *)
  isOpen : option bool
}.

Record Project : Type := mkProject {
  project_id : string;
  project_name : string;
  root : FileNode;
  lastModified : nat;
  owner : string
}.

Inductive LogType : Type := info | error | warning.

Record LogEntry : Type := mkLogEntry {
  log_id : string;
  log_type : LogType;
  message : string;
  log_file : option string;
  line : option nat;
  timestamp : nat
}.

(** ** [Record<string, T>]: the entries of an object in enumeration order

    Assigning to a key that is present keeps its place; a new key goes to the
    end.  (Keys that are array indices would enumerate first; file names
    with an extension are none.)  [get] gives the entry of the object itself
    under a key; it stands for [o[k]] where the key ends in [.tex], a name
    that no member of [Object.prototype] bears.  [read] is [o[k]] for any
    key: the entry of the object, and failing that the member of
    [Object.prototype] of that name. *)

Module Obj.

Definition t (V : Type) : Type := list (string * V).

Fixpoint get {V} (o : t V) (k : string) : option V :=
  match o with
  | [] => None
  | (k', v) :: o' => if String.eqb k' k then Some v else get o' k
  end.

Fixpoint set {V} (o : t V) (k : string) (v : V) : t V :=
  match o with
  | [] => [(k, v)]
  | (k', v') :: o' =>
      if String.eqb k' k then (k', v) :: o' else (k', v') :: set o' k v
  end.

Definition keys {V} (o : t V) : list string := map fst o.
Definition values {V} (o : t V) : list V := map snd o.

(** The names of the members of [Object.prototype]. *)
Definition prototype_members : list string :=
  [ "constructor"; "__defineGetter__"; "__defineSetter__"; "hasOwnProperty";
    "__lookupGetter__"; "__lookupSetter__"; "isPrototypeOf"; "propertyIsEnumerable";
    "toString"; "valueOf"; "__proto__"; "toLocaleString" ].

(** What a property access gives: a value stored in the object, or a member
    that the object inherits (a function, or the prototype itself). *)
Inductive property (V : Type) : Type :=
| Own (v : V)
| Inherited (member : string).

Arguments Own {V} v.
Arguments Inherited {V} member.

Definition read {V} (o : t V) (k : string) : option (property V) :=
  match get o k with
  | Some v => Some (Own v)
  | None =>
      if existsb (String.eqb k) prototype_members then Some (Inherited k) else None
  end.

End Obj.

(** ** [App.tsx]: the tree helpers *)

(** [flattenProjectFiles]: files of the tree by name, for the imports. *)
Fixpoint flattenProjectFiles (node : FileNode) (acc : Obj.t FileNode) : Obj.t FileNode :=
  match node with
  | mkFileNode _ nm file _ _ _ => Obj.set acc nm node
  | mkFileNode _ _ folder _ (Some cs) _ =>
      fold_left (fun a c => flattenProjectFiles c a) cs acc
  | mkFileNode _ _ folder _ None _ => acc
  end.

(** [findNode]: the first node with the given id, in depth-first order. *)
Fixpoint findNode_at (node : FileNode) (i : string) : option FileNode :=
  if String.eqb (id node) i then Some node
  else
    match node with
    | mkFileNode _ _ _ _ (Some cs) _ =>
        (fix go (l : list FileNode) : option FileNode :=
           match l with
           | [] => None
           | c :: l' =>
               match findNode_at c i with
               | Some found => Some found
               | None => go l'
               end
           end) cs
    | mkFileNode _ _ _ _ None _ => None
    end.

Fixpoint findNode (nodes : list FileNode) (i : string) : option FileNode :=
  match nodes with
  | [] => None
  | node :: nodes' =>
      match findNode_at node i with
      | Some found => Some found
      | None => findNode nodes' i
      end
  end.

(** ** [App.tsx]: the import resolver *)

(** The file a directive names: the last path segment, with [.tex] appended
    when it is not there. *)
Definition import_filename (importPath : string) : string :=
  let filename := or_else (split_pop "/" importPath) importPath in
  if endsWith filename ".tex" then filename else filename +:+ ".tex".

Definition loop_marker (filename : string) : string :=
  nl +:+ "% Recursive loop detected: " +:+ filename +:+ nl.

Definition missing_marker (filename : string) : string :=
  nl +:+ "% Missing file: " +:+ filename +:+ nl.

Definition begin_marker (filename : string) : string :=
  nl +:+ "% Begin " +:+ filename +:+ nl.

Definition end_marker (filename : string) : string :=
  nl +:+ "% End " +:+ filename +:+ nl.

(** The two revisions differ in how the file map is searched:
    [Object.values(fileMap).find(f => f.name === filename)] in [App.tsx],
    [fileMap[filename]] in the other. *)
Inductive revision : Type := ByName | ByKey.

Definition find_file (r : revision) (fileMap : Obj.t FileNode) (filename : string)
    : option FileNode :=
  match r with
  | ByName => List.find (fun f => String.eqb (name f) filename) (Obj.values fileMap)
  | ByKey => Obj.get fileMap filename
  end.

Section Resolver.

Variable r : revision.
Variable fileMap : Obj.t FileNode.

(** The replacement callback; [recur] is the recursive call. *)
Definition import_cb (recur : string -> gset string -> option string)
    (processed : gset string) (_match importPath : string) : option string :=
  let filename := import_filename importPath in
  let fileNode := find_file r fileMap filename in
  if decide (filename ∈ processed) then Some (loop_marker filename)
  else
    match fileNode with
    | Some f =>
        if truthy (content f) then
          let newProcessed := processed ∪ {[filename]} in
          body ← recur (default EmptyString (content f)) newProcessed;
          Some (begin_marker filename +:+ body +:+ end_marker filename)
        else Some (missing_marker filename)
    | None => Some (missing_marker filename)
    end.

(** [resolveLatexImports]; [fuel] bounds the number of nested calls, the
    first one included, and [None] means that it was exceeded. *)
Fixpoint resolve (fuel : nat) (content : string) (processed : gset string)
    : option string :=
  match fuel with
  | O => None
  | S fuel' => replace_opt import_re (import_cb (resolve fuel') processed) content
  end.

End Resolver.

(** The entry point: [resolveLatexImports(content, fileMap)] with the default
    [processed = new Set()] when the third argument is left out.  One call
    per file of the map and one for the entry text are enough (see
    [resolve_terminates]). *)
Definition resolveLatexImports (r : revision) (content : string)
    (fileMap : Obj.t FileNode) (processed : gset string) : string :=
  default EmptyString (resolve r fileMap (S (length fileMap)) content processed).

(** ** [App.tsx]: the compile action *)

Inductive View : Type := dashboard | editor.

(** The part of the component state that opening a project and compiling
    read and write, with the initial values of the [useState] calls. *)
Record AppState : Type := mkAppState {
  view : View;
  activeProjectId : option string;
  activeFileId : string;
  isCompiling : bool;
  logs : list LogEntry;
  compiledContent : string;
  previewAssets : Obj.t string
}.

Definition initial_state : AppState :=
  mkAppState dashboard None EmptyString false [] EmptyString [].

(** [projects.find(p => p.id === activeProjectId)] *)
Definition activeProject (projects : list Project) (st : AppState) : option Project :=
  match activeProjectId st with
  | Some i => List.find (fun p => String.eqb (project_id p) i) projects
  | None => None
  end.

(** [handleOpenProject]: the first compile attempt stores the content of the
    main file, when there is one with content. *)
Definition handleOpenProject (projects : list Project) (projectId : string)
    (st : AppState) : AppState :=
  let main :=
    match List.find (fun p => String.eqb (project_id p) projectId) projects with
    | Some project =>
        match children (root project) with
        | Some cs =>
            match List.find (fun c => String.eqb (name c) "main.tex") cs with
            | Some m => Some m
            | None =>
                List.find (fun c => match type c with file => true | folder => false end) cs
            end
        | None => None
        end
    | None => None
    end in
  mkAppState editor (Some projectId)
    (match main with Some m => id m | None => activeFileId st end)
    (isCompiling st) (logs st)
    (match main with
     | Some m => if truthy (content m) then default EmptyString (content m)
                 else compiledContent st
     | None => compiledContent st
     end)
    (previewAssets st).

(** [/\.(png|jpe?g|gif|svg)$/i.test(name)] *)
Definition is_image_name (nm : string) : bool :=
  let l := toLowerCase nm in
  endsWith l ".png" || endsWith l ".jpg" || endsWith l ".jpeg"
  || endsWith l ".gif" || endsWith l ".svg".

Definition no_main_file_log (now : nat) : LogEntry :=
  mkLogEntry "err" error "No main LaTeX file found to compile." None None now.

Definition missing_documentclass_log (now : nat) (mainName : string) : LogEntry :=
  mkLogEntry (of_nat now) warning
    "Missing \documentclass declaration. Preview may not render correctly."
    (Some mainName) None now.

Definition finished_log (now : nat) : LogEntry :=
  mkLogEntry (of_nat now) info "Compilation finished. Output: project.pdf" None None now.

(** The entry file: [main.tex], else the active node when its name ends in
    [.tex], else the first file whose name does. *)
Definition find_main (p : Project) (activeFileId : string) : option FileNode :=
  let fileMap := flattenProjectFiles (root p) [] in
  let allFiles := Obj.values fileMap in
  match Obj.get fileMap "main.tex" with
  | Some mainFile => Some mainFile
  | None =>
      match findNode (default [] (children (root p))) activeFileId with
      | Some activeNode =>
          if endsWith (name activeNode) ".tex" then Some activeNode
          else List.find (fun f => endsWith (name f) ".tex") allFiles
      | None => List.find (fun f => endsWith (name f) ".tex") allFiles
      end
  end.

(** The state once the timer of [handleRecompile] has fired; [now] is the
    clock read for the log entries. *)
Definition handleRecompile (projects : list Project) (now : nat) (st : AppState)
    : AppState :=
  match activeProject projects st with
  | None => st
  | Some p =>
      let fileMap := flattenProjectFiles (root p) [] in
      let allFiles := Obj.values fileMap in
      let mainFile := find_main p (activeFileId st) in
      let failed :=
        mkAppState (view st) (activeProjectId st) (activeFileId st) false
          [no_main_file_log now] (compiledContent st) (previewAssets st) in
      match mainFile with
      | Some m =>
          if truthy (content m) then
            let resolvedContent :=
              resolveLatexImports ByName (default EmptyString (content m)) fileMap ∅ in
            let assets :=
              fold_left (fun (a : Obj.t string) f =>
                           if truthy (content f) && is_image_name (name f)
                           then Obj.set a (name f) (default EmptyString (content f))
                           else a) allFiles [] in
            let newLogs :=
              if negb (includes resolvedContent "\documentclass")
              then [missing_documentclass_log now (name m)]
              else [finished_log now] in
            mkAppState (view st) (activeProjectId st) (activeFileId st) false
              newLogs resolvedContent assets
          else failed
      | None => failed
      end
  end.

(** ** The preview: the image block of [parseLatexToHtml] *)

(** Truthiness of what a property access on the asset map gives: a stored
    string is truthy when it is not empty, an inherited member always. *)
Definition truthy_src (src : option (Obj.property string)) : bool :=
  match src with
  | Some (Obj.Own (String _ _)) => true
  | Some (Obj.Inherited _) => true
  | _ => false
  end.

(** [a || b] on values read from the asset map. *)
Definition or_src (a b : option (Obj.property string)) : option (Obj.property string) :=
  if truthy_src a then a else b.

(** What is bound to an image name: what the map yields under the name
    itself, then under the name with [.png], [.jpg], [.jpeg]; failing these,
    every key that contains the name overwrites the candidate in turn. *)
Definition image_src (assets : Obj.t string) (filename : string)
    : option (Obj.property string) :=
  let src :=
    or_src (or_src (or_src (Obj.read assets filename)
                           (Obj.read assets (filename +:+ ".png")))
                   (Obj.read assets (filename +:+ ".jpg")))
           (Obj.read assets (filename +:+ ".jpeg")) in
  if truthy_src src then src
  else fold_left (fun src key => if includes key filename then Obj.read assets key else src)
         (Obj.keys assets) src.

Definition img_tag (src filename : string) : string :=
  "<img src=" +:+ dq +:+ src +:+ dq +:+ " alt=" +:+ dq +:+ filename +:+ dq
    +:+ " style=" +:+ dq
    +:+ "max-width: 100%; height: auto; display: block; margin: 1rem auto;"
    +:+ dq +:+ " />".

Definition missing_image (filename : string) : string :=
  "<div class=" +:+ dq
    +:+ "bg-red-50 border border-red-200 text-red-500 text-xs p-2 text-center rounded my-4 font-mono"
    +:+ dq +:+ ">Missing Image: " +:+ filename +:+ "</div>".

Section Images.

(** The text that a member of [Object.prototype] becomes in a template
    literal (the source text of a native function, which the engine
    chooses). *)
Variable member_text : string -> string.

(** [`${src}`] *)
Definition src_text (src : option (Obj.property string)) : string :=
  match src with
  | Some (Obj.Own v) => v
  | Some (Obj.Inherited member) => member_text member
  | None => EmptyString
  end.

Definition image_cb (assets : Obj.t string) (_match path : string) : string :=
  let filename := or_else (split_pop "/" path) path in
  let src := image_src assets filename in
  if truthy_src src then img_tag (src_text src) filename
  else missing_image filename.

Definition bind_images (assets : Obj.t string) (s : string) : string :=
  replace includegraphics_re (image_cb assets) s.

End Images.

(** ** The preview: the heading block of [parseLatexToHtml] *)

Record SectionCounters : Type := mkCounters {
  chapterCount : nat;
  sectionCount : nat;
  subsectionCount : nat
}.

Definition h1 (label title : string) : string :=
  "<h1 class=" +:+ dq +:+ "text-3xl font-bold mt-8 mb-6 border-b pb-2" +:+ dq +:+ ">"
    +:+ label +:+ title +:+ "</h1>".

Definition h2 (label title : string) : string :=
  "<h2 class=" +:+ dq +:+ "text-2xl font-bold mt-6 mb-4 text-slate-800" +:+ dq +:+ ">"
    +:+ label +:+ title +:+ "</h2>".

Definition h3 (label title : string) : string :=
  "<h3 class=" +:+ dq +:+ "text-xl font-bold mt-4 mb-3 text-slate-700" +:+ dq +:+ ">"
    +:+ label +:+ title +:+ "</h3>".

Definition chapter_cb (st : SectionCounters) (mtch title : string)
    : string * SectionCounters :=
  let starred := includes mtch "*" in
  let chapterCount' := if negb starred then S (chapterCount st) else chapterCount st in
  let st' := mkCounters chapterCount' 0 (subsectionCount st) in
  (h1 (if starred then EmptyString else of_nat chapterCount' +:+ ". ") title, st').

Definition section_cb (st : SectionCounters) (mtch title : string)
    : string * SectionCounters :=
  let starred := includes mtch "*" in
  let sectionCount' := if negb starred then S (sectionCount st) else sectionCount st in
  let st' := mkCounters (chapterCount st) sectionCount' 0 in
  let num :=
    if 0 <? chapterCount st then of_nat (chapterCount st) +:+ "." +:+ of_nat sectionCount'
    else of_nat sectionCount' in
  (h2 (if starred then EmptyString else num +:+ " ") title, st').

Definition subsection_cb (st : SectionCounters) (mtch title : string)
    : string * SectionCounters :=
  let starred := includes mtch "*" in
  let subsectionCount' :=
    if negb starred then S (subsectionCount st) else subsectionCount st in
  let st' := mkCounters (chapterCount st) (sectionCount st) subsectionCount' in
  let num :=
    if 0 <? chapterCount st
    then of_nat (chapterCount st) +:+ "." +:+ of_nat (sectionCount st) +:+ "."
           +:+ of_nat subsectionCount'
    else of_nat (sectionCount st) +:+ "." +:+ of_nat subsectionCount' in
  (h3 (if starred then EmptyString else num +:+ " ") title, st').

Definition no_headings : SectionCounters := mkCounters 0 0 0.

(** The three passes of the block, one after the other over the whole text:
    chapters, then sections, then subsections. *)
Definition number_headings (s : string) : string * SectionCounters :=
  let '(s1, st1) := replace_st chapter_re chapter_cb s no_headings in
  let '(s2, st2) := replace_st section_re section_cb s1 st1 in
  replace_st subsection_re subsection_cb s2 st2.

(** ** The preview: the math block of [parseLatexToHtml] *)

Section Math.

(** [katex.renderToString(math, {displayMode, throwOnError: false})];
    [None] stands for an exception. *)
Variable katex : string -> bool -> option string.

Definition inline_math_cb (_match math : string) : string :=
  match katex math false with
  | Some html => html
  | None =>
      "<span class=" +:+ dq +:+ "font-mono text-xs bg-yellow-50" +:+ dq +:+ ">"
        +:+ math +:+ "</span>"
  end.

Definition display_math_cb (_match math : string) : string :=
  match katex math true with
  | Some html =>
      "<div class=" +:+ dq +:+ "my-4 text-center" +:+ dq +:+ ">" +:+ html +:+ "</div>"
  | None =>
      "<div class=" +:+ dq +:+ "font-mono text-xs bg-yellow-50 p-2" +:+ dq +:+ ">"
        +:+ math +:+ "</div>"
  end.

(** The three passes of the block, in the order of the source: inline
    spans, then double-dollar spans, then bracket spans. *)
Definition render_math (s : string) : string :=
  let s1 := replace inline_math_re inline_math_cb s in
  let s2 := replace display_math_re display_math_cb s1 in
  replace bracket_math_re display_math_cb s2.

End Math.

(** ** [App.tsx]: editing the tree *)

(** [Partial<FileNode>]: the fields that an update sets; a field that is
    set may be set to [undefined] where the type has it optional. *)
Record FileNodeChanges : Type := mkChanges {
  set_id : option string;
  set_name : option string;
  set_type : option NodeType;
  set_content : option (option string);
  set_children : option (option (list FileNode));
  set_isOpen : option (option bool)
}.

(** [{ content: newContent }] and [{ isOpen: b }] *)
Definition content_change (newContent : string) : FileNodeChanges :=
  mkChanges None None None (Some (Some newContent)) None None.

Definition isOpen_change (b : bool) : FileNodeChanges :=
  mkChanges None None None None None (Some (Some b)).

(** [{ ...node, ...changes }] *)
Definition spread (node : FileNode) (changes : FileNodeChanges) : FileNode :=
  mkFileNode (default (id node) (set_id changes))
             (default (name node) (set_name changes))
             (default (type node) (set_type changes))
             (default (content node) (set_content changes))
             (default (children node) (set_children changes))
             (default (isOpen node) (set_isOpen changes)).

(** The callback of the [map] of [updateNodeInTree]: a node with the id is
    changed and not entered; another node is rebuilt around its updated
    children. *)
Fixpoint updateNode_at (node : FileNode) (nodeId : string) (changes : FileNodeChanges)
    : FileNode :=
  if String.eqb (id node) nodeId then spread node changes
  else
    match node with
    | mkFileNode i nm ty c (Some cs) o =>
        mkFileNode i nm ty c (Some (map (fun c' => updateNode_at c' nodeId changes) cs)) o
    | mkFileNode _ _ _ _ None _ => node
    end.

Definition updateNodeInTree (nodes : list FileNode) (nodeId : string)
    (changes : FileNodeChanges) : list FileNode :=
  map (fun node => updateNode_at node nodeId changes) nodes.

(** [{ ...root, children: updateNodeInTree(root.children || [], nodeId, changes) }] *)
Definition update_root (nodeId : string) (changes : FileNodeChanges) (root : FileNode)
    : FileNode :=
  mkFileNode (id root) (name root) (type root) (content root)
    (Some (updateNodeInTree (default [] (children root)) nodeId changes)) (isOpen root).

(** [updateProjectRoot] of the revision that keeps the projects in the
    component: every project with the id gets the new root and the time. *)
Definition updateProjectRoot (projects : list Project) (projectId : string)
    (updateFn : FileNode -> FileNode) (now : nat) : list Project :=
  map (fun p =>
         if negb (String.eqb (project_id p) projectId) then p
         else mkProject (project_id p) (project_name p) (updateFn (root p)) now (owner p))
      projects.

(** [handleFileChange] of that revision: the text typed in the editor goes
    to the node with the id of the active file. *)
Definition handleFileChange (projects : list Project) (now : nat) (st : AppState)
    (newContent : string) : list Project :=
  if negb (truthy (activeProjectId st)) then projects
  else
    updateProjectRoot projects (default EmptyString (activeProjectId st))
      (update_root (activeFileId st) (content_change newContent)) now.

(** [!node.isOpen] *)
Definition not_isOpen (node : FileNode) : bool := negb (default false (isOpen node)).

(** [handleToggleFolder] of that revision. *)
Definition handleToggleFolder (projects : list Project) (now : nat) (st : AppState)
    (nodeId : string) : list Project :=
  if negb (truthy (activeProjectId st)) then projects
  else
    let project := activeProject projects st in
    let cs := match project with
              | Some p => default [] (children (root p))
              | None => []
              end in
    match findNode cs nodeId with
    | Some node =>
        updateProjectRoot projects (default EmptyString (activeProjectId st))
          (update_root nodeId (isOpen_change (not_isOpen node))) now
    | None => projects
    end.

(** The project of [handleCreateProject]: one root folder with [main.tex].
    (The later revision also stamps the project with two date strings, which
    no function reads; they are left out, as in [Project].) *)
Definition blank_document : string :=
  "\documentclass{article}" +:+ nl +:+ "\begin{document}" +:+ nl +:+ "Hello World"
    +:+ nl +:+ "\end{document}".

Definition new_project (now : nat) : Project :=
  mkProject (of_nat now) "New Blank Project"
    (mkFileNode ("root_" +:+ of_nat now) "root" folder None
       (Some [mkFileNode ("main_" +:+ of_nat now) "main.tex" file (Some blank_document)
                None None])
       None)
    now "user@example.com".

(** [handleCreateProject]: the new project goes to the head of the list, and
    [handleOpenProject] runs on the list of the current render, which does
    not hold it yet. *)
Definition handleCreateProject (projects : list Project) (now : nat) (st : AppState)
    : list Project * AppState :=
  (new_project now :: projects, handleOpenProject projects (of_nat now) st).

(** ** [useProjects.ts]: the list of projects *)

Definition addProject (projects : list Project) (project : Project) : list Project :=
  project :: projects.

Definition updateProject (projects : list Project) (updatedProject : Project)
    : list Project :=
  map (fun p => if String.eqb (project_id p) (project_id updatedProject)
                then updatedProject else p) projects.

Definition deleteProject (projects : list Project) (i : string) : list Project :=
  List.filter (fun p => negb (String.eqb (project_id p) i)) projects.

(** ** The preview: the comment and body blocks of [parseLatexToHtml] *)

(** [/(?<!\\)%.*$/gm] replaced by the empty string: a percent sign that no
    backslash precedes goes with the rest of its line.  [escaped] tells
    whether the character before is a backslash, [in_comment] whether the
    walk is inside a match. *)
Fixpoint clean_comments_from (escaped in_comment : bool) (s : string) : string :=
  match s with
  | EmptyString => EmptyString
  | String c s' =>
      if in_comment then
        if is_line_terminator c then String c (clean_comments_from false false s')
        else clean_comments_from false true s'
      else if Ascii.eqb c "%" && negb escaped then clean_comments_from false true s'
      else String c (clean_comments_from (Ascii.eqb c "\") false s')
  end.

Definition clean_comments (s : string) : string := clean_comments_from false false s.

(** [s.indexOf(needle)]; [None] stands for -1. *)
Fixpoint indexOf (s needle : string) : option nat :=
  if startsWith s needle then Some 0
  else
    match s with
    | EmptyString => None
    | String _ s' => S <$> indexOf s' needle
    end.

(** [s.lastIndexOf(needle)] *)
Fixpoint lastIndexOf (s needle : string) : option nat :=
  match s with
  | EmptyString => if startsWith s needle then Some 0 else None
  | String _ s' =>
      match lastIndexOf s' needle with
      | Some i => Some (S i)
      | None => if startsWith s needle then Some 0 else None
      end
  end.

(** [s.substring(a, b)]: both bounds are brought into the string, and taken
    in increasing order. *)
Definition js_substring (s : string) (a b : nat) : string :=
  let a' := Nat.min a (String.length s) in
  let b' := Nat.min b (String.length s) in
  substring (Nat.min a' b') (Nat.max a' b' - Nat.min a' b') s.

Definition extract_body (s : string) : string :=
  match indexOf s "\begin{document}", lastIndexOf s "\end{document}" with
  | Some beginDoc, Some endDoc => js_substring s (beginDoc + 16) endDoc
  | _, _ => s
  end.

(** ** The preview: the blocks of chained replacements

    A chain [s.replace(re1, r1).replace(re2, r2)...] is the list of its
    passes, run from left to right.  A replacement string is the callback it
    stands for: a constant, or the capture group between two constants
    (the strings of the program hold no other [$] pattern). *)

Definition pass : Type := matcher * (string -> string -> string).

Definition run_passes (ps : list pass) (s : string) : string :=
  fold_left (fun s p => replace (fst p) (snd p) s) ps s.

(** The end of an expression. *)
Definition eps : matcher := fun s => Some (EmptyString, s).

(** An expression that is one literal. *)
Definition word (p : string) : matcher := lit_then p eps.

(** [\{[^}]+\}\{[^}]+\}] *)
Definition two_brace_groups : matcher :=
  fun s => brace_group s ≫= fun gr => brace_group (snd gr).

Definition constant (out : string) : string -> string -> string := fun _ _ => out.

(** ['before$1after'] *)
Definition around (before after : string) : string -> string -> string :=
  fun _ g1 => before +:+ g1 +:+ after.

(** An element with a [class] attribute, up to the end of its opening tag. *)
Definition open_tag (tag class : string) : string :=
  "<" +:+ tag +:+ " class=" +:+ dq +:+ class +:+ dq +:+ ">".

(** [\s] on characters below 256. *)
Definition is_space (c : ascii) : bool :=
  let n := nat_of_ascii c in
  ((9 <=? n) && (n <=? 13)) || (n =? 32) || (n =? 160).

(** The longest prefix of characters that satisfy [p], and what follows. *)
Fixpoint span_while (p : ascii -> bool) (s : string) : string * string :=
  match s with
  | EmptyString => (EmptyString, EmptyString)
  | String c s' =>
      if p c then let '(a, b) := span_while p s' in (String c a, b)
      else (EmptyString, s)
  end.

Fixpoint last_char (c : ascii) (s : string) : ascii :=
  match s with
  | EmptyString => c
  | String c' s' => last_char c' s'
  end.

(** Block 3: set-up commands. *)
Definition remove_setup : list pass :=
  [ (lit_then "\selectlanguage" brace_group, constant EmptyString);
    (word "\frenchspacing", constant EmptyString);
    (lit_then "\hyphenation" brace_group, constant EmptyString);
    (lit_then "\renewcommand" two_brace_groups, constant EmptyString);
    (lit_then "\setlength" two_brace_groups, constant EmptyString);
    (lit_then "\usepackage" (alt (lit_then "[" (lazy_to_bracket brace_group)) brace_group),
     constant EmptyString) ].

(** Block 6: font styles. *)
Definition font_styles : list pass :=
  [ (lit_then "\textbf" brace_group, around "<strong>" "</strong>");
    (lit_then "\textit" brace_group, around "<em>" "</em>");
    (lit_then "\textsc" brace_group,
     around (open_tag "span" "uppercase text-sm tracking-wider") "</span>");
    (lit_then "\underline" brace_group, around "<u>" "</u>");
    (lit_then "\emph" brace_group, around "<em>" "</em>");
    (lit_then "\texttt" brace_group,
     around (open_tag "code" "bg-gray-100 px-1 rounded font-mono text-sm") "</code>") ].

(** [/\{\\bfseries\s+([^}]+)\}/]: the blanks are taken as far as they go;
    when the closing brace follows them at once, the last blank is given
    back and makes the group. *)
Definition bfseries_re : matcher :=
  lit_then "{\bfseries"
    (fun s =>
       match span_while is_space s with
       | (String w ws, r) =>
           match span_not "}" r with
           | (String c g, String _ rest) => Some (String c g, rest)
           | (EmptyString, String _ rest) =>
               match ws with
               | EmptyString => None
               | String w' ws' => Some (String (last_char w' ws') EmptyString, rest)
               end
           | _ => None
           end
       | _ => None
       end).

(** Block 7: font sizes. *)
Definition font_sizes : list pass :=
  [ (word "\tiny", constant (open_tag "span" "text-xs"));
    (word "\small", constant (open_tag "span" "text-sm"));
    (word "\large", constant (open_tag "span" "text-lg"));
    (word "\Large", constant (open_tag "span" "text-xl"));
    (word "\LARGE", constant (open_tag "span" "text-2xl"));
    (word "\huge", constant (open_tag "span" "text-3xl"));
    (word "\Huge", constant (open_tag "span" "text-4xl"));
    (bfseries_re, around "<strong>" "</strong>") ].

(** [\\item\s+] and a group of any characters but line feeds, which may
    be empty. *)
Definition item_re : matcher :=
  lit_then "\item"
    (fun s =>
       match span_while is_space s with
       | (String _ _, r) => Some (span_not (ascii_of_nat 10) r)
       | _ => None
       end).

(** Block 10: lists. *)
Definition lists : list pass :=
  [ (lit_then "\begin{itemize}" (until "\end{itemize}"),
     around (open_tag "ul" "list-disc pl-6 space-y-1 my-4") "</ul>");
    (lit_then "\begin{enumerate}" (until "\end{enumerate}"),
     around (open_tag "ol" "list-decimal pl-6 space-y-1 my-4") "</ol>");
    (item_re, around "<li>" "</li>") ].

(** Block 11: the abstract. *)
Definition abstract_block : list pass :=
  [ (lit_then "\begin{abstract}" (until "\end{abstract}"),
     around (open_tag "div" "mx-12 my-8 text-sm text-justify"
               +:+ open_tag "p" "text-center font-bold text-xs uppercase tracking-wider mb-2"
               +:+ "Abstract</p>")
            "</div>") ].

(** The two dashes lie outside the characters below 256: they are written
    as their UTF-8 bytes (U+2014 and U+2013). *)
Definition em_dash : string :=
  String (ascii_of_nat 226) (String (ascii_of_nat 128) (String (ascii_of_nat 148) EmptyString)).

Definition en_dash : string :=
  String (ascii_of_nat 226) (String (ascii_of_nat 128) (String (ascii_of_nat 147) EmptyString)).

(** Block 12: special characters, notes and references. *)
Definition special_characters : list pass :=
  [ (word "\textthreequartersemdash", constant em_dash);
    (word "---", constant em_dash);
    (word "--", constant en_dash);
    (word "``", constant dq);
    (word "''", constant dq);
    (lit_then "\footnote" brace_group,
     around ("<sup class=" +:+ dq +:+ "text-blue-600 cursor-pointer" +:+ dq +:+ " title=" +:+ dq)
            (dq +:+ ">[ref]</sup>"));
    (lit_then "\cite" brace_group, constant (open_tag "span" "text-blue-600" +:+ "[1]</span>"));
    (lit_then "\ref" brace_group, constant (open_tag "span" "text-blue-600" +:+ "1.1</span>"));
    (lit_then "\label" brace_group, constant EmptyString) ].

(** ** The preview: a replacement with two capture groups *)

Inductive gpiece (G : Type) : Type :=
| GLit (c : ascii)
| GHit (whole : string) (groups : G).

Arguments GLit {G} c.
Arguments GHit {G} whole groups.

(** The walk of [Regex.scan_from], for an expression with any groups. *)
Fixpoint gscan_from {G : Type} (m : string -> option (G * string)) (skip : nat) (s : string)
    : list (gpiece G) :=
  match s with
  | EmptyString => []
  | String c s' =>
      match skip with
      | S k => gscan_from m k s'
      | O =>
          match m s with
          | Some (g, rest) =>
              let len := String.length s - String.length rest in
              GHit (substring 0 len s) g :: gscan_from m (len - 1) s'
          | None => GLit c :: gscan_from m 0 s'
          end
      end
  end.

Definition greplace {G : Type} (m : string -> option (G * string))
    (cb : string -> G -> string) (s : string) : string :=
  foldr (fun p acc =>
           match p with
           | GLit c => String c acc
           | GHit w g => cb w g +:+ acc
           end) EmptyString (gscan_from m 0 s).

(** [(.*?)\}] followed by [k]: the shortest run of characters of the line
    after which a closing brace and [k] match; the run is the first group. *)
Fixpoint lazy_to_brace {G : Type} (k : string -> option (G * string)) (s : string)
    : option ((string * G) * string) :=
  match s with
  | EmptyString => None
  | String c s' =>
      match (if Ascii.eqb c "}" then k s' else None) with
      | Some (g, rest) => Some ((EmptyString, g), rest)
      | None =>
          if is_line_terminator c then None
          else
            match lazy_to_brace k s' with
            | Some ((g1, g), rest) => Some ((String c g1, g), rest)
            | None => None
            end
      end
  end.

(** [/\\begin\{minipage\}\{(.*?)\}([\s\S]*?)\\end\{minipage\}/] *)
Definition minipage_re : string -> option ((string * string) * string) :=
  fun s => strip_prefix "\begin{minipage}{" s ≫= lazy_to_brace (until "\end{minipage}").

(** ** The preview: [parseLatexToHtml] *)

Section ParseLatexToHtml.

(** The typesetting call, as in the math block, and the text of an inherited
    member, as in the image block. *)
Variable katex : string -> bool -> option string.
Variable member_text : string -> string.

(** The numbers that the template literals print: [parseFloat(w) * 100],
    [(parseFloat(w) / 21) * 100] and [parseFloat(w)], as text. *)
Variable textwidth_percent : string -> string.
Variable cm_percent : string -> string.
Variable float_text : string -> string.

(** Block 4: minipages. *)
Definition minipage_cb (_match : string) (groups : string * string) : string :=
  let width := fst groups in
  let cssWidth :=
    if includes width "\textwidth" then textwidth_percent width +:+ "%"
    else if includes width "cm" then cm_percent width +:+ "%"
    else "100%" in
  "<div class=" +:+ dq +:+ "inline-block align-top" +:+ dq +:+ " style=" +:+ dq
    +:+ "width: " +:+ cssWidth +:+ "; vertical-align: top;" +:+ dq +:+ ">"
    +:+ snd groups +:+ "</div>".

Definition minipages (s : string) : string := greplace minipage_re minipage_cb s.

Definition vspace_cb (_match size : string) : string :=
  let height :=
    if includes size "cm" then float_text size +:+ "cm"
    else if includes size "mm" then float_text size +:+ "mm"
    else "1rem" in
  "<div style=" +:+ dq +:+ "height: " +:+ height +:+ dq +:+ "></div>".

(** Block 5: layout and spacing. *)
Definition layout_spacing : list pass :=
  [ (word "\centering", constant (open_tag "div" "text-center w-full block"));
    (lit_then "\vspace" brace_group, vspace_cb);
    (lit_then "\hspace" brace_group,
     constant ("<span style=" +:+ dq +:+ "display:inline-block; width: 1rem;" +:+ dq
                 +:+ "></span>"));
    (word "\newpage", constant (open_tag "div" "page-break" +:+ "</div>"));
    (word "\clearpage", constant (open_tag "div" "page-break" +:+ "</div>"));
    (word "\par", constant "<br/><br/>");
    (word "\\", constant "<br/>") ].

(** The blocks in the order of the source. *)
Definition parseLatexToHtml (code : string) (assets : Obj.t string) : string :=
  match code with
  | EmptyString => EmptyString
  | String _ _ =>
      let s1 := clean_comments code in
      let s2 := extract_body s1 in
      let s3 := run_passes remove_setup s2 in
      let s4 := minipages s3 in
      let s5 := run_passes layout_spacing s4 in
      let s6 := run_passes font_styles s5 in
      let s7 := run_passes font_sizes s6 in
      let s8 := bind_images member_text assets s7 in
      let s9 := fst (number_headings s8) in
      let s10 := run_passes lists s9 in
      let s11 := run_passes abstract_block s10 in
      let s12 := run_passes special_characters s11 in
      render_math katex s12
  end.

End ParseLatexToHtml.


(** * Part II: the vocabulary of the properties *)

(** ** Matches of an expression in a text *)

(** The first capture groups of the matches of a scan, in order. *)
Definition hits (ps : list piece) : list string :=
  flat_map (fun p => match p with Lit _ => [] | Hit _ g => [g] end) ps.

(** The inclusion directives of a text, as the files they name, in order. *)
Definition imports (content : string) : list string :=
  map import_filename (hits (scan import_re content)).

(** The expression matches at no position of the text. *)
Definition no_match (m : matcher) (s : string) : Prop :=
  ∀ pre suf, s = pre +:+ suf → m suf = None.

Fixpoint no_match_b (m : matcher) (s : string) : bool :=
  match m s with
  | Some _ => false
  | None =>
      match s with
      | EmptyString => true
      | String _ s' => no_match_b m s'
      end
  end.

(** A matcher returns a suffix of its input; a proper one when it never
    matches the empty string. *)
Definition consumes (m : matcher) : Prop :=
  ∀ s g rest, m s = Some (g, rest) → ∃ whole, s = whole +:+ rest.

Definition consumes_some (m : matcher) : Prop :=
  ∀ s g rest, m s = Some (g, rest) → ∃ whole, whole ≠ EmptyString ∧ s = whole +:+ rest.

(** Number of positions of [hay] at which [needle] starts. *)
Fixpoint occurrences (hay needle : string) : nat :=
  (if startsWith hay needle then 1 else 0) +
  match hay with
  | EmptyString => 0
  | String _ hay' => occurrences hay' needle
  end.

(** The callback invocations of a stateful replacement, in order: the state
    each one starts from, the whole match and the capture group. *)
Fixpoint calls {St : Type} (cb : St -> string -> string -> string * St)
    (ps : list piece) (st : St) : list (St * string * string) :=
  match ps with
  | [] => []
  | Lit _ :: ps' => calls cb ps' st
  | Hit w g :: ps' => (st, w, g) :: calls cb ps' (snd (cb st w g))
  end.

(** ** The output of the resolver as a tree *)

(** What the resolver leaves in place of the text, as a tree: the copied
    characters, the markers, and the expansions with what they contain. *)
Inductive node : Type :=
| NText (c : ascii)
| NLoop (filename : string)
| NMissing (filename : string)
| NExpand (filename : string) (body : list node).

Section ResolverTree.

Variable r : revision.
Variable fileMap : Obj.t FileNode.

(** The walk of [import_cb] and [resolve], keeping the structure of the
    output instead of its text (see [resolve_render]). *)
Definition import_node (recur : string -> gset string -> option (list node))
    (processed : gset string) (filename : string) : option node :=
  if decide (filename ∈ processed) then Some (NLoop filename)
  else
    match find_file r fileMap filename with
    | Some f =>
        if truthy (content f) then
          NExpand filename <$>
            recur (default EmptyString (content f)) (processed ∪ {[filename]})
        else Some (NMissing filename)
    | None => Some (NMissing filename)
    end.

Definition pieces_nodes (cb : string -> option node) (ps : list piece)
    : option (list node) :=
  foldr (fun p acc =>
           match p with
           | Lit c => (NText c ::.) <$> acc
           | Hit _ g => n ← cb g; rest ← acc; Some (n :: rest)
           end) (Some []) ps.

Fixpoint resolve_tree (fuel : nat) (content : string) (processed : gset string)
    : option (list node) :=
  match fuel with
  | O => None
  | S fuel' =>
      pieces_nodes (fun importPath =>
                      import_node (resolve_tree fuel') processed (import_filename importPath))
        (scan import_re content)
  end.

End ResolverTree.

Definition import_tree (r : revision) (content : string)
    (fileMap : Obj.t FileNode) (processed : gset string) : list node :=
  default [] (resolve_tree r fileMap (S (length fileMap)) content processed).

(** The text a tree stands for. *)
Fixpoint render_node (n : node) : string :=
  match n with
  | NText c => String c EmptyString
  | NLoop f => loop_marker f
  | NMissing f => missing_marker f
  | NExpand f body =>
      begin_marker f +:+ foldr (fun n acc => render_node n +:+ acc) EmptyString body
        +:+ end_marker f
  end.

Definition render (ns : list node) : string :=
  foldr (fun n acc => render_node n +:+ acc) EmptyString ns.

(** Number of expansions nested inside one another. *)
Fixpoint depth_node (n : node) : nat :=
  match n with
  | NExpand _ body => S (foldr (fun n acc => Nat.max (depth_node n) acc) 0 body)
  | _ => 0
  end.

Definition depth (ns : list node) : nat :=
  foldr (fun n acc => Nat.max (depth_node n) acc) 0 ns.

(** The files named by the recursive-loop markers, in output order. *)
Fixpoint loops_node (n : node) : list string :=
  match n with
  | NLoop f => [f]
  | NExpand _ body => foldr (fun n acc => loops_node n ++ acc) [] body
  | _ => []
  end.

Definition loops (ns : list node) : list string :=
  foldr (fun n acc => loops_node n ++ acc) [] ns.

(** The files expanded, in output order. *)
Fixpoint expansions_node (n : node) : list string :=
  match n with
  | NExpand f body => f :: foldr (fun n acc => expansions_node n ++ acc) [] body
  | _ => []
  end.

Definition expansions (ns : list node) : list string :=
  foldr (fun n acc => expansions_node n ++ acc) [] ns.

(** The tree without the copied characters. *)
Fixpoint skeleton_node (n : node) : list node :=
  match n with
  | NText _ => []
  | NExpand f body => [NExpand f (foldr (fun n acc => skeleton_node n ++ acc) [] body)]
  | _ => [n]
  end.

Definition skeleton (ns : list node) : list node :=
  foldr (fun n acc => skeleton_node n ++ acc) [] ns.

Definition is_text (n : node) : bool :=
  match n with NText _ => true | _ => false end.

(** The markers and expansions at the top of a tree, in order. *)
Definition structural (t : list node) : list node :=
  List.filter (fun n => negb (is_text n)) t.

(** The rendered content of every expansion of the file [f], in order. *)
Fixpoint bodies_node (f : string) (n : node) : list string :=
  match n with
  | NExpand g body =>
      (if String.eqb g f then [render body] else [])
        ++ foldr (fun n acc => bodies_node f n ++ acc) [] body
  | _ => []
  end.

Definition bodies (f : string) (t : list node) : list string :=
  foldr (fun n acc => bodies_node f n ++ acc) [] t.

(** ** Files of a map and nodes of a project *)

(** The names under which a revision can find a file. *)
Definition file_names (r : revision) (fileMap : Obj.t FileNode) : list string :=
  match r with
  | ByName => map name (Obj.values fileMap)
  | ByKey => Obj.keys fileMap
  end.

(** Files of the map that the current branch has not entered. *)
Definition pending (r : revision) (fileMap : Obj.t FileNode) (processed : gset string) : nat :=
  size ((list_to_set (file_names r fileMap) : gset string) ∖ processed).


(** The nodes of a tree: the node and what is below it. *)
Fixpoint nodes (n : FileNode) : list FileNode :=
  n :: match n with
       | mkFileNode _ _ _ _ (Some cs) _ => flat_map nodes cs
       | mkFileNode _ _ _ _ None _ => []
       end.

(** ** The passes over the headings *)

Inductive level : Type := Chapter | Section | Subsection.

Definition heading_cb (lvl : level) :=
  match lvl with
  | Chapter => chapter_cb
  | Section => section_cb
  | Subsection => subsection_cb
  end.

Definition heading_html (lvl : level) :=
  match lvl with Chapter => h1 | Section => h2 | Subsection => h3 end.

(** How the starred variant of a heading directive begins. *)
Definition starred_directive (lvl : level) : string :=
  match lvl with
  | Chapter => "\chapter*"
  | Section => "\section*"
  | Subsection => "\subsection*"
  end.

(** The callback invocations of the pass of [lvl] while [number_headings]
    runs on [code]: the counters each one starts from, the match, the title. *)
Definition heading_calls (lvl : level) (code : string)
    : list (SectionCounters * string * string) :=
  let ps1 := scan chapter_re code in
  let '(s1, st1) := replace_pieces chapter_cb ps1 no_headings in
  let ps2 := scan section_re s1 in
  let '(s2, st2) := replace_pieces section_cb ps2 st1 in
  match lvl with
  | Chapter => calls chapter_cb ps1 no_headings
  | Section => calls section_cb ps2 st1
  | Subsection => calls subsection_cb (scan subsection_re s2) st2
  end.

(** ** Sample projects, asset maps and typesetting call *)

Definition tex (nm body : string) : FileNode :=
  mkFileNode nm nm file (Some body) None None.

Definition cycle_map : Obj.t FileNode :=
  [("A.tex", tex "A.tex" "a\input{B}z"); ("B.tex", tex "B.tex" "b\include{A}y")].

Definition two_directive_map : Obj.t FileNode :=
  [("A.tex", tex "A.tex" "\input{B}\input{B}"); ("B.tex", tex "B.tex" "\input{A}")].

Definition diamond_map : Obj.t FileNode :=
  [("A.tex", tex "A.tex" "\input{B} and \input{C}");
   ("B.tex", tex "B.tex" "b: \input{D}");
   ("C.tex", tex "C.tex" "c: \input{sub/D.tex}");
   ("D.tex", tex "D.tex" "shared")].

Definition diamond_back_map : Obj.t FileNode :=
  [("A.tex", tex "A.tex" "\input{B}\input{C}");
   ("B.tex", tex "B.tex" "\input{D}");
   ("C.tex", tex "C.tex" "\input{D}");
   ("D.tex", tex "D.tex" "d\input{A}")].

Definition empty_map : Obj.t FileNode :=
  [("main.tex", tex "main.tex" "x\input{ch1}y"); ("ch1.tex", tex "ch1.tex" EmptyString)].

Definition self_map : Obj.t FileNode :=
  [("main.tex", tex "main.tex" "top \input{main} end")].

Definition empty_project : Project :=
  mkProject "p1" "Empty" (mkFileNode "root" "root" folder None (Some []) None) 0 "me".

Definition thesis_project : Project :=
  mkProject "p0" "Thesis"
    (mkFileNode "root" "root" folder None
       (Some [tex "main.tex" "\documentclass{article} Old text"]) None) 0 "me".

Definition two_figures : Obj.t string := [("fig1.png", "DATA1"); ("fig2.png", "DATA2")].

(** A stand-in for the text of an inherited member. *)
Definition demo_member_text (member : string) : string :=
  "function " +:+ member +:+ "() { [native code] }".

(** A stand-in for the typesetting call. *)
Definition demo_katex (math : string) (displayMode : bool) : option string :=
  Some ((if displayMode then "<katex-display>" else "<katex>") +:+ math +:+ "</katex>").

(** ** Files and fields of a tree *)

(** The files that [flattenProjectFiles] reaches, in depth-first order: a
    folder is entered, a file is not. *)
Fixpoint files_of (n : FileNode) : list FileNode :=
  match n with
  | mkFileNode _ _ file _ _ _ => [n]
  | mkFileNode _ _ folder _ (Some cs) _ => flat_map files_of cs
  | mkFileNode _ _ folder _ None _ => []
  end.

(** The last file of that name that the walk reaches. *)
Definition last_named (k : string) (n : FileNode) : option FileNode :=
  last (List.filter (fun f => String.eqb (name f) k) (files_of n)).

(** The fields of a node other than its children. *)
Definition fields (n : FileNode)
    : string * string * NodeType * option string * option bool :=
  (id n, name n, type n, content n, isOpen n).

(** The nodes below the root of a project. *)
Definition project_nodes (p : Project) : list FileNode := default [] (children (root p)).

(** Sample trees. *)
Definition sample_tree : list FileNode :=
  [ mkFileNode "d1" "chapters" folder None
      (Some [tex "intro.tex" "Intro"; tex "main.tex" "inner"]) (Some true);
    tex "main.tex" "outer";
    mkFileNode "d2" "figures" folder None (Some []) None ].

Definition sample_project : Project :=
  mkProject "p7" "Sample" (mkFileNode "root" "root" folder None (Some sample_tree) None) 0 "me".

Definition sample_state : AppState :=
  mkAppState editor (Some "p7") "intro.tex" false [] EmptyString [].

(** A project with a picture in two places, the later one without data. *)
Definition picture_project : Project :=
  mkProject "p8" "Pictures"
    (mkFileNode "root" "root" folder None
       (Some [ tex "main.tex" "\documentclass{article}\includegraphics{logo}";
               mkFileNode "f1" "logo.png" file (Some "data:image/png;base64,AAAA") None None;
               mkFileNode "f2" "plot.PNG" file (Some "data:image/png;base64,BBBB") None None;
               mkFileNode "d" "old" folder None
                 (Some [mkFileNode "f3" "logo.png" file None None None]) None;
               tex "notes.txt" "not a picture" ]) None) 0 "me".

Definition picture_state : AppState :=
  mkAppState editor (Some "p8") "main.tex" false [] EmptyString [].

(** A stand-in for the printing of the numbers of a width or a height. *)
Definition of_percent (w : string) : string := "<" +:+ w +:+ ">".

(** ** Plain text and the passes of the preview *)

(** The text holds none of the characters. *)
Definition avoids (cs : list ascii) (s : string) : bool :=
  forallb (fun c => negb (includes s (String c EmptyString))) cs.

(** Every expression of the chained blocks, of the image block, of the
    heading block and of the bracket pass holds a backslash, a dash, a
    backquote or an apostrophe. *)
Definition command_chars : list ascii := ["\"; "-"; "`"; "'"]%char.

(** Plain text: none of these, no percent sign and no dollar sign. *)
Definition plain (s : string) : bool :=
  avoids command_chars s && avoids ["%"; "$"]%char s.

(** A pass whose expression begins with a literal that holds one of the
    characters. *)
Definition literal_pass (cs : list ascii) (p : pass) : Prop :=
  ∃ lit k, fst p = lit_then lit k
           ∧ existsb (fun c => includes lit (String c EmptyString)) cs = true.

(** No line terminator in the text. *)
Definition line_free (s : string) : bool :=
  forallb (fun c => negb (is_line_terminator c)) (list_ascii_of_string s).


(** * Part III: lemmas and theorems *)

#[local] Arguments Ascii.eqb : simpl never.

(** ** Strings *)

Lemma append_nil_l s : EmptyString +:+ s = s.
Proof. reflexivity. Qed.

Lemma append_cons c s t : String c s +:+ t = String c (s +:+ t).
Proof. reflexivity. Qed.

Lemma append_assoc (a b c : string) : (a +:+ b) +:+ c = a +:+ (b +:+ c).
Proof. induction a as [|x a IH]; [done|]. by rewrite !append_cons, IH. Qed.

Lemma length_append (a b : string) :
  String.length (a +:+ b) = String.length a + String.length b.
Proof. induction a as [|x a IH]; [done|]. rewrite append_cons. simpl. by rewrite IH. Qed.

Lemma substring_prefix (w rest : string) : substring 0 (String.length w) (w +:+ rest) = w.
Proof.
  induction w as [|x w IH]; simpl.
  - by destruct rest.
  - by rewrite IH.
Qed.

Lemma strip_prefix_app p x rest r :
  strip_prefix x p = Some r → strip_prefix x (p +:+ rest) = Some (r +:+ rest).
Proof.
  revert p. induction x as [|a x IH]; intros p; simpl.
  - by intros [= ->].
  - destruct p as [|b p]; [done|]. rewrite append_cons.
    destruct (Ascii.eqb a b); [apply IH|done].
Qed.

Lemma startsWith_app p x rest :
  startsWith p x = true → startsWith (p +:+ rest) x = true.
Proof.
  unfold startsWith. destruct (strip_prefix x p) as [r|] eqn:Hr; [|done].
  by rewrite (strip_prefix_app _ _ rest _ Hr).
Qed.

Lemma includes_app p x rest : includes p x = true → includes (p +:+ rest) x = true.
Proof.
  induction p as [|c p IH]; simpl.
  - rewrite orb_false_r. intros H.
    destruct rest; simpl; apply orb_true_iff; left;
      apply (startsWith_app EmptyString x _ H).
  - intros H. apply orb_true_iff in H as [H|H].
    + apply orb_true_iff. left. exact (startsWith_app (String c p) x rest H).
    + apply orb_true_iff. right. by apply IH.
Qed.

Lemma strip_prefix_eq p w rest : strip_prefix p w = Some rest → w = p +:+ rest.
Proof.
  revert w. induction p as [|a p IH]; intros w; simpl.
  - by intros [= ->].
  - destruct w as [|b w]; [done|]. destruct (Ascii.eqb_spec a b) as [->|]; [|done].
    intros H. rewrite append_cons. f_equal. by apply IH.
Qed.

Lemma span_not_eq stop s a b : span_not stop s = (a, b) → s = a +:+ b.
Proof.
  revert a b. induction s as [|c s IH]; simpl; intros a b.
  - by intros [= <- <-].
  - destruct (Ascii.eqb c stop); [by intros [= <- <-]|].
    destruct (span_not stop s) as [a' b']. intros [= <- <-].
    rewrite append_cons. f_equal. by apply IH.
Qed.

Lemma span_not_stop stop s a b :
  span_not stop s = (a, b) →
  includes a (String stop EmptyString) = false
  ∧ (b = EmptyString ∨ ∃ b', b = String stop b').
Proof.
  revert a b. induction s as [|c s IH]; simpl; intros a b.
  - intros [= <- <-]. split; [done|by left].
  - destruct (Ascii.eqb_spec c stop) as [->|Hne].
    + intros [= <- <-]. split; [done|]. right. by eexists.
    + destruct (span_not stop s) as [a' b']. intros [= <- <-].
      destruct (IH a' b' eq_refl) as [Ha Hb]. split; [|done].
      simpl. unfold startsWith. simpl.
      destruct (Ascii.eqb_spec stop c) as [->|_]; [done|]. by rewrite Ha.
Qed.

Lemma includes_char_cons c h x :
  includes (String c h) (String x EmptyString) = false →
  Ascii.eqb x c = false ∧ includes h (String x EmptyString) = false.
Proof.
  simpl. unfold startsWith. simpl. intros H. apply orb_false_iff in H as [H1 H2].
  split; [|done]. by destruct (Ascii.eqb x c).
Qed.

Lemma span_not_free stop e rest :
  includes e (String stop EmptyString) = false →
  span_not stop (e +:+ String stop rest) = (e, String stop rest).
Proof.
  induction e as [|c e IH]; intros He.
  - rewrite append_nil_l. simpl. by rewrite Ascii.eqb_refl.
  - apply includes_char_cons in He as [Hc He]. rewrite append_cons. simpl.
    rewrite Ascii.eqb_sym, Hc. by rewrite (IH He).
Qed.

(** ** The scan is the leftmost-match loop *)

Lemma scan_from_skip m (w rest : string) :
  scan_from m (String.length w) (w +:+ rest) = scan_from m 0 rest.
Proof. induction w as [|x w IH]; [done|]. rewrite append_cons. simpl. apply IH. Qed.

(** Where the expression does not match, the character is copied. *)
Lemma scan_lit m c s : m (String c s) = None → scan m (String c s) = Lit c :: scan m s.
Proof. unfold scan. simpl. by intros ->. Qed.

(** Where it matches, the callback gets the match and the scan goes on
    after it. *)
Lemma scan_hit m s whole g rest :
  m s = Some (g, rest) → s = whole +:+ rest → whole ≠ EmptyString →
  scan m s = Hit whole g :: scan m rest.
Proof.
  intros Hm -> Hne. destruct whole as [|c w]; [done|].
  unfold scan. rewrite append_cons. rewrite append_cons in Hm. simpl. rewrite Hm.
  assert (S (String.length (w +:+ rest)) - String.length rest = S (String.length w)) as ->
    by (rewrite length_append; lia).
  simpl. rewrite substring_prefix, Nat.sub_0_r. f_equal. apply scan_from_skip.
Qed.

Lemma brace_group_consumes : consumes_some brace_group.
Proof.
  intros s g rest. unfold brace_group.
  destruct s as [|c s]; [done|].
  destruct (Ascii.eqb_spec c "{") as [->|Hne].
  - destruct (span_not "}" s) as [a b] eqn:Hs.
    destruct a as [|x a]; [done|]. destruct b as [|y b]; [done|].
    intros [= <- <-]. apply span_not_eq in Hs as ->.
    exists (String "{" (String x a +:+ String y EmptyString)). split; [done|].
    by rewrite !append_cons, append_assoc.
  - intros H. exfalso. revert H.
    destruct c as [[] [] [] [] [] [] [] []]; try done.
Qed.

Lemma lit_then_consumes p k : consumes k → consumes (lit_then p k).
Proof.
  intros Hk s g rest. unfold lit_then.
  destruct (strip_prefix p s) as [s'|] eqn:Hp; [|done]. simpl. intros H.
  destruct (Hk _ _ _ H) as (w & ->). apply strip_prefix_eq in Hp as ->.
  exists (p +:+ w). by rewrite append_assoc.
Qed.

Lemma lit_then_consumes_some p k :
  p ≠ EmptyString → consumes k → consumes_some (lit_then p k).
Proof.
  intros Hne Hk s g rest. unfold lit_then.
  destruct (strip_prefix p s) as [s'|] eqn:Hp; [|done]. simpl. intros H.
  destruct (Hk _ _ _ H) as (w & ->). apply strip_prefix_eq in Hp as ->.
  exists (p +:+ w). split; [by destruct p|]. by rewrite append_assoc.
Qed.

Lemma consumes_some_consumes m : consumes_some m → consumes m.
Proof. intros H s g rest Hm. destruct (H _ _ _ Hm) as (w & _ & ->). by exists w. Qed.

Lemma alt_consumes m1 m2 : consumes m1 → consumes m2 → consumes (alt m1 m2).
Proof.
  intros H1 H2 s g rest. unfold alt.
  destruct (m1 s) as [[g1 r1]|] eqn:Hm; [intros [= <- <-]; by eapply H1|by apply H2].
Qed.

Lemma until_consumes stop : consumes (until stop).
Proof.
  intros s. induction s as [|c s IH]; intros g rest; simpl.
  - destruct (strip_prefix stop EmptyString) as [r|] eqn:Hp; [|done].
    intros [= <- <-]. apply strip_prefix_eq in Hp. by exists stop.
  - destruct (strip_prefix stop (String c s)) as [r|] eqn:Hp.
    + intros [= <- <-]. apply strip_prefix_eq in Hp. by exists stop.
    + destruct (until stop s) as [[g' r']|] eqn:Hu; [|done].
      intros [= <- <-]. destruct (IH _ _ eq_refl) as (w & ->).
      by exists (String c w).
Qed.

Lemma lazy_to_bracket_consumes k : consumes k → consumes (lazy_to_bracket k).
Proof.
  intros Hk s. induction s as [|c s IH]; intros g rest; simpl; [done|].
  destruct (if Ascii.eqb c "]" then k s else None) as [[g' r']|] eqn:Hc.
  - intros [= <- <-]. destruct (Ascii.eqb c "]"); [|done].
    destruct (Hk _ _ _ Hc) as (w & ->). by exists (String c w).
  - destruct (is_line_terminator c); [done|]. intros H.
    destruct (IH _ _ H) as (w & ->). by exists (String c w).
Qed.

Lemma import_re_consumes : consumes_some import_re.
Proof.
  apply lit_then_consumes_some; [done|].
  apply alt_consumes; apply lit_then_consumes, consumes_some_consumes, brace_group_consumes.
Qed.

Lemma includegraphics_re_consumes : consumes_some includegraphics_re.
Proof.
  apply lit_then_consumes_some; [done|]. apply alt_consumes.
  - apply lit_then_consumes, lazy_to_bracket_consumes, consumes_some_consumes,
      brace_group_consumes.
  - apply consumes_some_consumes, brace_group_consumes.
Qed.

Lemma heading_re_consumes directive :
  directive ≠ EmptyString → consumes_some (heading_re directive).
Proof.
  intros Hne. apply lit_then_consumes_some; [done|]. apply alt_consumes.
  - apply lit_then_consumes, consumes_some_consumes, brace_group_consumes.
  - apply consumes_some_consumes, brace_group_consumes.
Qed.

Lemma inline_math_re_consumes : consumes_some inline_math_re.
Proof.
  intros s g rest. unfold inline_math_re.
  destruct s as [|c s]; [done|].
  destruct (Ascii.eqb_spec c "$") as [->|Hne].
  - destruct (span_not "$" s) as [a b] eqn:Hs.
    destruct a as [|x a]; [done|]. destruct b as [|y b]; [done|].
    intros [= <- <-]. apply span_not_eq in Hs as ->.
    exists (String "$" (String x a +:+ String y EmptyString)). split; [done|].
    by rewrite !append_cons, append_assoc.
  - intros H. exfalso. revert H.
    destruct c as [[] [] [] [] [] [] [] []]; try done.
Qed.

Lemma display_math_re_consumes : consumes_some display_math_re.
Proof. apply lit_then_consumes_some; [done|apply until_consumes]. Qed.

Lemma bracket_math_re_consumes : consumes_some bracket_math_re.
Proof. apply lit_then_consumes_some; [done|apply until_consumes]. Qed.

(** What the inclusion expression matches: one of the two directive names,
    an opening brace, a non-empty path free of closing braces, and the
    closing brace. *)
Lemma import_re_shape s g rest :
  import_re s = Some (g, rest) →
  (s = "\input{" +:+ g +:+ "}" +:+ rest ∨ s = "\include{" +:+ g +:+ "}" +:+ rest)
  ∧ g ≠ EmptyString ∧ includes g "}" = false.
Proof.
  assert (∀ s', brace_group s' = Some (g, rest) →
                s' = "{" +:+ g +:+ "}" +:+ rest ∧ g ≠ EmptyString ∧ includes g "}" = false)
    as Hbrace.
  { intros s'. unfold brace_group. destruct s' as [|c s']; [done|].
    destruct (Ascii.eqb_spec c "{") as [->|Hne].
    - destruct (span_not "}" s') as [a b] eqn:Hs.
      destruct a as [|x a]; [done|]. destruct b as [|y b]; [done|].
      intros [= <- <-]. destruct (span_not_stop _ _ _ _ Hs) as [Hfree [?|[b' [= -> ->] ] ] ];
        [done|].
      apply span_not_eq in Hs as ->. by rewrite !append_cons.
    - intros H. exfalso. revert H. destruct c as [[] [] [] [] [] [] [] []]; try done. }
  unfold import_re, lit_then, alt.
  destruct (strip_prefix "\" s) as [s1|] eqn:H1; cbn [mbind option_bind]; [|done].
  apply strip_prefix_eq in H1 as ->.
  destruct (strip_prefix "input" s1) as [s2|] eqn:H2; cbn [mbind option_bind].
  - apply strip_prefix_eq in H2 as ->.
    destruct (brace_group s2) as [[g' r']|] eqn:Hb.
    + intros [= -> ->]. destruct (Hbrace _ Hb) as (-> & Hg & Hfree).
      split; [by left|done].
    + destruct (strip_prefix "include" ("input" +:+ s2)) eqn:H3; [|done].
      by vm_compute in H3.
  - destruct (strip_prefix "include" s1) as [s3|] eqn:H3; cbn [mbind option_bind]; [|done].
    apply strip_prefix_eq in H3 as ->. intros Hb.
    destruct (Hbrace _ Hb) as (-> & Hg & Hfree). split; [by right|done].
Qed.

Example scan_import_ex :
  scan import_re "a\input{ch/b}c" = [Lit "a"; Hit "\input{ch/b}" "ch/b"; Lit "c"].
Proof. reflexivity. Qed.

Example scan_import_ex2 :
  scan import_re "\include{x}\input{}\input{y" =
    Hit "\include{x}" "x" :: map Lit (list_ascii_of_string "\input{}\input{y").
Proof. reflexivity. Qed.

Example scan_graphics_ex :
  scan includegraphics_re "x\includegraphics[width=1cm]{img/fig}y\includegraphics{a}"
    = [Lit "x"; Hit "\includegraphics[width=1cm]{img/fig}" "img/fig"; Lit "y";
       Hit "\includegraphics{a}" "a"].
Proof. reflexivity. Qed.

Example scan_heading_ex :
  scan section_re "\section*{A}\subsection{B}\section{C}"
    = Hit "\section*{A}" "A"
        :: map Lit (list_ascii_of_string "\subsection{B}") ++ [Hit "\section{C}" "C"].
Proof. reflexivity. Qed.

Example scan_math_ex :
  scan display_math_re "a$$x$y$$b" = [Lit "a"; Hit "$$x$y$$" "x$y"; Lit "b"]
  ∧ scan inline_math_re "a$x$b$" = [Lit "a"; Hit "$x$" "x"; Lit "b"; Lit "$"]
  ∧ scan bracket_math_re "\[x\]" = [Hit "\[x\]" "x"].
Proof. by vm_compute. Qed.

(** ** Texts without a match *)

Lemma no_match_b_spec m s : no_match_b m s = true → no_match m s.
Proof.
  induction s as [|c s IH]; simpl.
  - destruct (m EmptyString) eqn:Hm; [done|]. intros _ pre suf Hs.
    destruct pre; [rewrite append_nil_l in Hs; by subst|].
    rewrite append_cons in Hs. discriminate.
  - destruct (m (String c s)) eqn:Hm; [done|]. intros Hb pre suf Hs.
    destruct pre as [|c' pre].
    + rewrite append_nil_l in Hs. by subst.
    + rewrite append_cons in Hs. injection Hs as -> ->. by apply (IH Hb pre).
Qed.

Lemma no_match_scan m s : no_match m s → scan m s = map Lit (list_ascii_of_string s).
Proof.
  unfold scan. induction s as [|c s IH]; intros H; simpl; [done|].
  rewrite (H EmptyString (String c s) eq_refl). f_equal.
  apply IH. intros pre suf ->. by apply (H (String c pre)).
Qed.

Lemma no_hit_scan m s : hits (scan m s) = [] → scan m s = map Lit (list_ascii_of_string s).
Proof.
  unfold scan. induction s as [|c s IH]; simpl; [done|].
  destruct (m (String c s)) as [[g rest]|]; simpl; [done|].
  intros H. f_equal. by apply IH.
Qed.

Lemma replace_opt_literal m cb s :
  scan m s = map Lit (list_ascii_of_string s) → replace_opt m cb s = Some s.
Proof.
  unfold replace_opt. intros ->.
  induction s as [|c s IH]; simpl; [done|]. by rewrite IH.
Qed.

Lemma replace_literal m cb s :
  scan m s = map Lit (list_ascii_of_string s) → replace m cb s = s.
Proof.
  unfold replace. intros ->. induction s as [|c s IH]; simpl; [done|]. by rewrite IH.
Qed.

Lemma replace_opt_ext m cb cb' s :
  (∀ w g, cb w g = cb' w g) → replace_opt m cb s = replace_opt m cb' s.
Proof.
  intros H. unfold replace_opt.
  induction (scan m s) as [|[c|w g] ps IH]; simpl; [done|by rewrite IH|].
  by rewrite H, IH.
Qed.

(** A text free of the first character of an expression holds no match of
    it, whatever follows. *)
Lemma no_match_b_free (a : ascii) p (k : matcher) h tail :
  includes h (String a EmptyString) = false →
  no_match_b (lit_then (String a p) k) tail = true →
  no_match_b (lit_then (String a p) k) (h +:+ tail) = true.
Proof.
  intros Hh Htail. induction h as [|c h IH]; [done|].
  apply includes_char_cons in Hh as [Hc Hh]. rewrite append_cons.
  simpl. unfold lit_then at 1. simpl. rewrite Hc. simpl. by apply IH.
Qed.

(** ** Stateful replacement *)

Lemma calls_invariant {St : Type} (Inv : St → Prop)
    (cb : St → string → string → string * St) ps :
  (∀ st w g, Inv st → Inv (snd (cb st w g))) →
  ∀ st, Inv st →
    (∀ st' w g, (st', w, g) ∈ calls cb ps st → Inv st')
    ∧ Inv (snd (replace_pieces cb ps st)).
Proof.
  intros Hcb. induction ps as [|[c|w g] ps IH]; simpl; intros st Hst.
  - split; [|done]. intros st' w g H. by apply elem_of_nil in H.
  - destruct (IH st Hst) as [Hc Hf]. split; [done|].
    by destruct (replace_pieces cb ps st).
  - specialize (Hcb st w g Hst). destruct (cb st w g) as [out st1]. simpl in *.
    destruct (IH st1 Hcb) as [Hc Hf]. split.
    + intros st' w' g' H. apply elem_of_cons in H as [[= -> -> ->]|H]; [done|].
      by apply (Hc st' w' g').
    + by destruct (replace_pieces cb ps st1).
Qed.

(** The end state of a stateful replacement is the end state of its last
    callback invocation. *)
Lemma replace_pieces_state {St : Type} (cb : St → string → string → string * St) ps st :
  snd (replace_pieces cb ps st)
    = default st (last (map (fun '(s, w, g) => snd (cb s w g)) (calls cb ps st))).
Proof.
  revert st. induction ps as [|[c|w g] ps IH]; intros st; simpl; [done| |].
  - rewrite <- IH. by destruct (replace_pieces cb ps st).
  - destruct (cb st w g) as [out st1] eqn:Hcb. simpl.
    specialize (IH st1). destruct (replace_pieces cb ps st1) as [r st']. simpl in *.
    rewrite IH. destruct (calls cb ps st1) as [|[[s' w'] g'] l]; simpl; [done|].
    match goal with
    | |- default _ (last ?xs) = _ =>
        destruct (proj2 (last_is_Some xs) ltac:(done)) as [y ->]
    end.
    done.
Qed.

(** ** The resolver ends, and how deep it goes *)

Lemma file_names_length r fileMap : length (file_names r fileMap) = length fileMap.
Proof. destruct r; unfold file_names, Obj.values, Obj.keys; by rewrite !length_map. Qed.

Lemma obj_get_key {V} (o : Obj.t V) k v : Obj.get o k = Some v → k ∈ Obj.keys o.
Proof.
  induction o as [|[k' v'] o IH]; simpl; [done|].
  destruct (String.eqb_spec k' k) as [->|Hne]; intros H.
  - apply list_elem_of_here.
  - apply list_elem_of_further, IH, H.
Qed.

Lemma find_file_names r fileMap filename f :
  find_file r fileMap filename = Some f → filename ∈ file_names r fileMap.
Proof.
  destruct r; simpl.
  - intros H. apply find_some in H as [Hin Heq].
    apply String.eqb_eq in Heq as <-.
    apply list_elem_of_In, in_map, Hin.
  - apply obj_get_key.
Qed.

Lemma size_list_to_set_le (l : list string) : size (list_to_set l : gset string) ≤ length l.
Proof.
  induction l as [|x l IH].
  - rewrite list_to_set_nil, size_empty. done.
  - rewrite list_to_set_cons, size_union_alt, size_singleton. simpl.
    pose proof (subseteq_size ((list_to_set l : gset string) ∖ {[x]}) (list_to_set l)
                  ltac:(set_solver)).
    lia.
Qed.

Lemma pending_le r fileMap processed : pending r fileMap processed ≤ length fileMap.
Proof.
  unfold pending. rewrite <- (file_names_length r fileMap).
  etrans; [|apply size_list_to_set_le].
  apply subseteq_size. set_solver.
Qed.

Lemma pending_add r fileMap processed filename :
  filename ∈ file_names r fileMap → filename ∉ processed →
  pending r fileMap (processed ∪ {[filename]}) < pending r fileMap processed.
Proof.
  intros Hin Hnot. unfold pending. apply subset_size.
  apply (elem_of_list_to_set (C:=gset string)) in Hin.
  set_solver.
Qed.

Section ResolverFacts.

Variable r : revision.
Variable fileMap : Obj.t FileNode.

Lemma pieces_nodes_mono (cb cb' : string → option node) ps t :
  (∀ g n, cb g = Some n → cb' g = Some n) →
  pieces_nodes cb ps = Some t → pieces_nodes cb' ps = Some t.
Proof.
  intros Hcb. revert t. induction ps as [|[c|w g] ps IH]; simpl; intros t H.
  - done.
  - apply fmap_Some in H as (t' & Ht' & ->). by rewrite (IH _ Ht').
  - apply bind_Some in H as (n & Hn & H).
    apply bind_Some in H as (t' & Ht' & [= <-]).
    by rewrite (Hcb _ _ Hn), (IH _ Ht').
Qed.

(** More fuel never changes a result. *)
Lemma resolve_tree_mono fuel fuel' text processed t :
  fuel ≤ fuel' →
  resolve_tree r fileMap fuel text processed = Some t →
  resolve_tree r fileMap fuel' text processed = Some t.
Proof.
  revert fuel' text processed t.
  induction fuel as [|fuel IH]; intros fuel' text processed t Hle H; [done|].
  destruct fuel' as [|fuel']; [lia|]. simpl in *.
  eapply pieces_nodes_mono; [|exact H].
  intros g n. simpl. unfold import_node.
  destruct (decide _); [done|].
  destruct (find_file r fileMap _) as [f|]; [|done].
  destruct (truthy _); [|done].
  intros Hn. apply fmap_Some in Hn as (body & Hbody & ->).
  rewrite (IH fuel' _ _ body); [done|lia|done].
Qed.

Lemma pieces_nodes_total (cb : string → option node) d ps :
  (∀ g, ∃ n, cb g = Some n ∧ depth_node n ≤ d) →
  ∃ t, pieces_nodes cb ps = Some t ∧ depth t ≤ d.
Proof.
  intros Hcb. induction ps as [|[c|w g] ps (t & Ht & Hd)]; simpl.
  - exists []. split; [done|simpl; lia].
  - exists (NText c :: t). rewrite Ht. split; [done|]. unfold depth in *. simpl. lia.
  - destruct (Hcb g) as (n & Hn & Hdn). exists (n :: t). rewrite Hn, Ht.
    split; [done|]. unfold depth in *. simpl. lia.
Qed.

(** One unit of fuel for the first call and one per file not yet entered
    are enough, and the expansions nest no deeper than the files not yet
    entered. *)
Lemma resolve_tree_enough fuel text processed :
  pending r fileMap processed < fuel →
  ∃ t, resolve_tree r fileMap fuel text processed = Some t
       ∧ depth t ≤ pending r fileMap processed.
Proof.
  revert text processed.
  induction fuel as [|fuel IH]; intros text processed Hlt; [lia|]. simpl.
  apply pieces_nodes_total. intros g. unfold import_node.
  destruct (decide _) as [|Hnot]; [eexists; split; [done|simpl; lia]|].
  destruct (find_file r fileMap _) as [f|] eqn:Hfind;
    [|eexists; split; [done|simpl; lia]].
  destruct (truthy _); [|eexists; split; [done|simpl; lia]].
  pose proof (pending_add r fileMap processed _ (find_file_names _ _ _ _ Hfind) Hnot) as Hadd.
  destruct (IH (default EmptyString (content f)) (processed ∪ {[import_filename g]}))
    as (body & Hbody & Hd); [lia|].
  exists (NExpand (import_filename g) body). rewrite Hbody. split; [done|].
  simpl. unfold depth in Hd. lia.
Qed.

Lemma import_cb_render fuel processed w g :
  (∀ text processed',
      resolve r fileMap fuel text processed' =
      render <$> resolve_tree r fileMap fuel text processed') →
  import_cb r fileMap (resolve r fileMap fuel) processed w g =
  render_node <$>
    import_node r fileMap (resolve_tree r fileMap fuel) processed (import_filename g).
Proof.
  intros IH. unfold import_cb, import_node.
  destruct (decide _); [done|].
  destruct (find_file r fileMap _) as [f|]; [|done].
  destruct (truthy _); [|done].
  rewrite IH. by destruct (resolve_tree _ _ _ _ _).
Qed.

(** The text returned is the rendering of the tree. *)
Lemma resolve_render fuel text processed :
  resolve r fileMap fuel text processed =
  render <$> resolve_tree r fileMap fuel text processed.
Proof.
  revert text processed.
  induction fuel as [|fuel IH]; intros text processed; [done|]. simpl.
  unfold replace_opt. induction (scan import_re text) as [|[c|w g] ps IHps]; simpl.
  - done.
  - rewrite IHps. by destruct (pieces_nodes _ ps).
  - rewrite IHps, (import_cb_render fuel processed w g IH).
    destruct (import_node _ _ _ _ _); [|done].
    by destruct (pieces_nodes _ ps).
Qed.

(** [resolveLatexImports] returns, whatever the text, the map and the set
    it starts from: a call budget of the number of files plus one is never
    exceeded, and the expansions nest no deeper than the number of files. *)
Theorem resolve_terminates text processed :
  ∃ t, (∀ fuel, length fileMap < fuel →
          resolve_tree r fileMap fuel text processed = Some t
          ∧ resolve r fileMap fuel text processed = Some (render t))
       ∧ import_tree r text fileMap processed = t
       ∧ resolveLatexImports r text fileMap processed = render t
       ∧ depth t ≤ length fileMap.
Proof.
  pose proof (pending_le r fileMap processed) as Hle.
  destruct (resolve_tree_enough (S (length fileMap)) text processed)
    as (t & Ht & Hd); [lia|].
  exists t. split; [|split; [|split]].
  - intros fuel Hfuel.
    assert (resolve_tree r fileMap fuel text processed = Some t) as Ht'
      by (eapply resolve_tree_mono; [|exact Ht]; lia).
    by rewrite resolve_render, Ht'.
  - unfold import_tree. by rewrite Ht.
  - unfold resolveLatexImports. by rewrite resolve_render, Ht.
  - lia.
Qed.

End ResolverFacts.

(** The text returned by [resolveLatexImports] is the rendering of the tree. *)
Lemma resolveLatexImports_render r text fileMap processed :
  resolveLatexImports r text fileMap processed
    = render (import_tree r text fileMap processed).
Proof.
  destruct (resolve_terminates r fileMap text processed) as (t & _ & -> & -> & _). done.
Qed.

(** ** The shape of the output *)

Lemma render_text s : render (map NText (list_ascii_of_string s)) = s.
Proof.
  induction s as [|c s IH]; [done|].
  change (String c (render (map NText (list_ascii_of_string s))) = String c s).
  by rewrite IH.
Qed.

Lemma pieces_nodes_literal cb s :
  pieces_nodes cb (map Lit (list_ascii_of_string s)) = Some (map NText (list_ascii_of_string s)).
Proof. induction s as [|c s IH]; simpl; [done|]. by rewrite IH. Qed.

Lemma pieces_nodes_structural cb ps t :
  (∀ g n, cb g = Some n → is_text n = false) →
  pieces_nodes cb ps = Some t → mapM cb (hits ps) = Some (structural t).
Proof.
  intros Hcb. revert t. induction ps as [|[c|w g] ps IH]; simpl; intros t H.
  - by injection H as <-.
  - apply fmap_Some in H as (t' & Ht' & ->). simpl. by apply IH.
  - apply bind_Some in H as (n & Hn & H).
    apply bind_Some in H as (t' & Ht' & [= <-]).
    rewrite Hn. simpl. rewrite (IH _ Ht'). simpl.
    by rewrite (Hcb _ _ Hn).
Qed.

Lemma skeleton_structural t : skeleton (structural t) = skeleton t.
Proof.
  induction t as [|n t IH]; [done|]. unfold skeleton in *.
  destruct n; simpl; by rewrite ?IH.
Qed.

Lemma depth_structural t : depth (structural t) = depth t.
Proof.
  induction t as [|n t IH]; [done|]. unfold depth in *.
  destruct n; simpl; by rewrite ?IH.
Qed.

Lemma loops_structural t : loops (structural t) = loops t.
Proof.
  induction t as [|n t IH]; [done|]. unfold loops in *.
  destruct n; simpl; by rewrite ?IH.
Qed.

Lemma expansions_structural t : expansions (structural t) = expansions t.
Proof.
  induction t as [|n t IH]; [done|]. unfold expansions in *.
  destruct n; simpl; by rewrite ?IH.
Qed.

Lemma bodies_structural f t : bodies f (structural t) = bodies f t.
Proof.
  induction t as [|n t IH]; [done|]. unfold bodies in *.
  destruct n; simpl; by rewrite ?IH.
Qed.

Lemma bodies_text f l : bodies f (map NText l) = [].
Proof. induction l as [|c l IH]; [done|]. unfold bodies in *. simpl. by rewrite IH. Qed.

Lemma skeleton_text l : skeleton (map NText l) = [].
Proof. induction l as [|c l IH]; [done|]. unfold skeleton in *. simpl. by rewrite IH. Qed.

Lemma loops_text l : loops (map NText l) = [].
Proof. induction l as [|c l IH]; [done|]. unfold loops in *. simpl. by rewrite IH. Qed.

Section ResolverShape.

Variable r : revision.
Variable fileMap : Obj.t FileNode.

Lemma import_node_not_text recur processed filename n :
  import_node r fileMap recur processed filename = Some n → is_text n = false.
Proof.
  unfold import_node. destruct (decide _); [by intros [= <-]|].
  destruct (find_file r fileMap filename) as [f|]; [|by intros [= <-]].
  destruct (truthy _); [|by intros [= <-]].
  intros H. by apply fmap_Some in H as (body & _ & ->).
Qed.

(** One step of the resolver: the markers and expansions at the top of the
    tree are what the callback returns for the directives of the text. *)
Lemma resolve_tree_step fuel text processed t :
  resolve_tree r fileMap (S fuel) text processed = Some t →
  mapM (import_node r fileMap (resolve_tree r fileMap fuel) processed) (imports text)
    = Some (structural t).
Proof.
  simpl. intros H. apply pieces_nodes_structural in H.
  - unfold imports. revert H. generalize (structural t) as ns.
    induction (hits (scan import_re text)) as [|g gs IH]; intros ns; simpl; [done|].
    destruct (import_node _ _ _ _ _) as [n|]; simpl; [|done].
    destruct (mapM _ gs) as [k|] eqn:Hk; simpl; [|done].
    intros [= <-]. by rewrite (IH k eq_refl).
  - intros g n. apply import_node_not_text.
Qed.

(** A text without directives comes back as it is. *)
Lemma resolve_tree_no_imports fuel text processed :
  imports text = [] →
  resolve_tree r fileMap (S fuel) text processed
    = Some (map NText (list_ascii_of_string text)).
Proof.
  intros H. simpl. rewrite no_hit_scan, pieces_nodes_literal; [done|].
  unfold imports in H. by destruct (hits _).
Qed.

Lemma import_node_loop recur processed filename :
  filename ∈ processed →
  import_node r fileMap recur processed filename = Some (NLoop filename).
Proof. intros H. unfold import_node. by rewrite decide_True. Qed.

Lemma import_node_expand recur processed filename f text :
  filename ∉ processed → find_file r fileMap filename = Some f →
  content f = Some text → text ≠ EmptyString →
  import_node r fileMap recur processed filename
    = NExpand filename <$> recur text (processed ∪ {[filename]}).
Proof.
  intros Hnot Hf Hc Hne. unfold import_node. rewrite decide_False, Hf, Hc by done.
  by destruct text.
Qed.


(** A directive that needs a call beyond the budget exhausts the budget of
    the text that holds it. *)
Lemma resolve_tree_step_none fuel text processed f :
  imports text = [f] →
  import_node r fileMap (resolve_tree r fileMap fuel) processed f = None →
  resolve_tree r fileMap (S fuel) text processed = None.
Proof.
  intros Hi Hnone.
  destruct (resolve_tree r fileMap (S fuel) text processed) as [t|] eqn:Ht; [|done].
  apply resolve_tree_step in Ht. rewrite Hi in Ht.
  change (mapM ?f [?x]) with (y ← f x; k ← mapM f []; Some (y :: k)) in Ht.
  by rewrite Hnone in Ht.
Qed.

End ResolverShape.

Lemma imports_nonempty text f l : imports text = f :: l → text ≠ EmptyString.
Proof. by intros H ->. Qed.

Lemma mapM_cons_opt {A B} (f : A → option B) x l :
  mapM f (x :: l) = y ← f x; k ← mapM f l; Some (y :: k).
Proof. reflexivity. Qed.

Ltac step_tree H Hi :=
  apply resolve_tree_step in H; rewrite Hi, ?mapM_cons_opt in H.

Ltac expand_in H f n c Hbody t :=
  rewrite (import_node_expand _ _ _ _ f n c) in H by (done || set_solver);
  match type of H with
  | context [resolve_tree ?r ?m ?k c ?p] =>
      destruct (resolve_tree r m k c p) as [t|] eqn:Hbody;
      cbn [fmap option_fmap option_map mbind option_bind mret option_ret] in H;
      [|discriminate H]
  end.

(** ** Properties of the import resolver *)

(** C8. A text in which the inclusion expression matches nowhere is returned
    unchanged, for every file map and every set of visited files: every call
    with at least one unit of fuel returns it, and so does
    [resolveLatexImports]. *)
Theorem resolve_no_directive_identity (r : revision) (fileMap : Obj.t FileNode)
    (text : string) (processed : gset string) :
  no_match import_re text →
  (∀ fuel, 0 < fuel → resolve r fileMap fuel text processed = Some text)
  ∧ resolveLatexImports r text fileMap processed = text.
Proof.
  intros H.
  assert (∀ fuel, resolve r fileMap (S fuel) text processed = Some text) as Hs.
  { intros fuel. simpl. apply replace_opt_literal, no_match_scan, H. }
  split.
  - intros [|fuel] Hfuel; [lia|apply Hs].
  - unfold resolveLatexImports. by rewrite Hs.
Qed.

Lemma resolve_no_directive_identity_witness :
  (∀ fuel, 0 < fuel →
     resolve ByName [("main.tex", tex "main.tex" "\section{One} \inputs x")] fuel
       "\section{One} \inputs x" {["a.tex"]} = Some "\section{One} \inputs x")
  ∧ resolveLatexImports ByKey "\section{One} \inputs x" [] ∅ = "\section{One} \inputs x".
Proof.
  split.
  - apply (resolve_no_directive_identity ByName _ "\section{One} \inputs x").
    by apply no_match_b_spec.
  - apply (resolve_no_directive_identity ByKey [] "\section{One} \inputs x" ∅).
    by apply no_match_b_spec.
Defined.

(** C1 (amended). Two files that include each other.  For every file map the
    resolver returns within a budget of one call per file plus one, its
    expansions nest no deeper than the number of files, and every directive
    of the text leaves one marker or expansion in the output, in order.  A
    directive that names a file of the current branch gives the
    recursive-loop marker and nothing else, whatever the recursive call would
    do.  When A holds exactly one directive, naming B, and B exactly one,
    naming A, the output for A is: B expanded, in it A expanded once more,
    and in it the one recursive-loop marker, naming B; nothing is expanded
    below the marker.  These are two nested expansions, hence three nested
    calls: a budget of two calls is exceeded. *)
Theorem cycle_one_marker (r : revision) (fileMap : Obj.t FileNode) :
  (∀ text processed,
      ∃ t, (∀ fuel, length fileMap < fuel →
              resolve r fileMap fuel text processed = Some (render t))
           ∧ resolveLatexImports r text fileMap processed = render t
           ∧ import_tree r text fileMap processed = t
           ∧ depth t ≤ length fileMap
           ∧ length (structural t) = length (imports text))
  ∧ (∀ recur processed mtch importPath,
      import_filename importPath ∈ processed →
      import_cb r fileMap recur processed mtch importPath
        = Some (loop_marker (import_filename importPath)))
  ∧ (∀ fA fB nA nB cA cB,
      find_file r fileMap fA = Some nA → content nA = Some cA →
      find_file r fileMap fB = Some nB → content nB = Some cB →
      fA ≠ fB → imports cA = [fB] → imports cB = [fA] →
      skeleton (import_tree r cA fileMap ∅) = [NExpand fB [NExpand fA [NLoop fB]]]
      ∧ loops (import_tree r cA fileMap ∅) = [fB]
      ∧ depth (import_tree r cA fileMap ∅) = 2
      ∧ resolve r fileMap 2 cA ∅ = None).
Proof.
  split; [|split].
  - intros text processed.
    destruct (resolve_terminates r fileMap text processed) as (t & Hfuel & Htree & Hres & Hd).
    exists t. repeat split; try done.
    + intros fuel Hlt. by apply Hfuel.
    + destruct (Hfuel (S (length fileMap)) ltac:(lia)) as [Ht _].
      apply resolve_tree_step, length_mapM in Ht. done.
  - intros recur processed mtch importPath Hin. unfold import_cb.
    by rewrite decide_True.
  - intros fA fB nA nB cA cB HA HcA HB HcB Hne HiA HiB.
    pose proof (imports_nonempty _ _ _ HiA) as HneA.
    pose proof (imports_nonempty _ _ _ HiB) as HneB.
    assert (resolve r fileMap 2 cA ∅ = None) as Hnone.
    { rewrite resolve_render.
      rewrite (resolve_tree_step_none r fileMap 1 cA ∅ fB HiA); [done|].
      rewrite (import_node_expand _ _ _ _ fB nB cB) by (done || set_solver).
      rewrite (resolve_tree_step_none r fileMap 0 cB _ fA HiB); [done|].
      by rewrite (import_node_expand _ _ _ _ fA nA cA) by (done || set_solver). }
    destruct (resolve_terminates r fileMap cA ∅) as (t & Hfuel & -> & _ & _).
    destruct (Hfuel (S (S (S (length fileMap)))) ltac:(lia)) as [Ht _].
    step_tree Ht HiA. expand_in Ht fB nB cB HtB tB. injection Ht as Ht.
    step_tree HtB HiB. expand_in HtB fA nA cA HtA tA. injection HtB as HtB.
    step_tree HtA HiA. rewrite import_node_loop in HtA by set_solver.
    injection HtA as HtA.
    rewrite <- (skeleton_structural t), <- (loops_structural t), <- (depth_structural t), <- Ht.
    change (skeleton [NExpand fB tB]) with [NExpand fB (skeleton tB)].
    change (loops [NExpand fB tB]) with (loops tB ++ []).
    change (depth [NExpand fB tB]) with (Nat.max (S (depth tB)) 0).
    rewrite <- (skeleton_structural tB), <- (loops_structural tB), <- (depth_structural tB), <- HtB.
    change (skeleton [NExpand fA tA]) with [NExpand fA (skeleton tA)].
    change (loops [NExpand fA tA]) with (loops tA ++ []).
    change (depth [NExpand fA tA]) with (Nat.max (S (depth tA)) 0).
    rewrite <- (skeleton_structural tA), <- (loops_structural tA), <- (depth_structural tA), <- HtA.
    done.
Qed.

Lemma cycle_one_marker_witness :
  skeleton (import_tree ByKey "a\input{B}z" cycle_map ∅)
    = [NExpand "B.tex" [NExpand "A.tex" [NLoop "B.tex"]]]
  ∧ loops (import_tree ByKey "a\input{B}z" cycle_map ∅) = ["B.tex"]
  ∧ depth (import_tree ByKey "a\input{B}z" cycle_map ∅) = 2
  ∧ resolve ByKey cycle_map 2 "a\input{B}z" ∅ = None.
Proof.
  apply (proj2 (proj2 (cycle_one_marker ByKey cycle_map)) "A.tex" "B.tex"
           (tex "A.tex" "a\input{B}z") (tex "B.tex" "b\include{A}y")
           "a\input{B}z" "b\include{A}y"); done.
Defined.

(** The output of the cycle above, and the budget it needs: three calls for
    two files (the entry text, B, and A once more). *)
Example cycle_output :
  resolveLatexImports ByName "a\input{B}z" cycle_map ∅ =
    "a" +:+ begin_marker "B.tex" +:+ "b" +:+ begin_marker "A.tex" +:+ "a"
      +:+ loop_marker "B.tex" +:+ "z" +:+ end_marker "A.tex" +:+ "y"
      +:+ end_marker "B.tex" +:+ "z"
  ∧ resolve ByName cycle_map 3 "a\input{B}z" ∅
      = Some (resolveLatexImports ByName "a\input{B}z" cycle_map ∅)
  ∧ resolve ByName cycle_map 2 "a\input{B}z" ∅ = None
  ∧ occurrences (resolveLatexImports ByName "a\input{B}z" cycle_map ∅)
      "% Recursive loop detected: " = 1.
Proof. by vm_compute. Qed.

(** C1, as stated, fails: A includes B (twice) and B includes A, and the
    output for A holds four recursive-loop markers.  The two files take
    three nested calls. *)
Lemma cycle_two_directives_counterexample :
  find_file ByName two_directive_map "A.tex" = Some (tex "A.tex" "\input{B}\input{B}")
  ∧ find_file ByName two_directive_map "B.tex" = Some (tex "B.tex" "\input{A}")
  ∧ imports "\input{B}\input{B}" = ["B.tex"; "B.tex"]
  ∧ imports "\input{A}" = ["A.tex"]
  ∧ loops (import_tree ByName "\input{B}\input{B}" two_directive_map ∅)
      = ["B.tex"; "B.tex"; "B.tex"; "B.tex"]
  ∧ occurrences (resolveLatexImports ByName "\input{B}\input{B}" two_directive_map ∅)
      "% Recursive loop detected: " = 4
  ∧ length two_directive_map = 2
  ∧ resolve ByName two_directive_map 2 "\input{B}\input{B}" ∅ = None
  ∧ resolve ByName two_directive_map 3 "\input{B}\input{B}" ∅
      = Some (resolveLatexImports ByName "\input{B}\input{B}" two_directive_map ∅).
Proof. by vm_compute. Qed.

(** C2 (amended). A diamond.  When the directives of A name B and C, those of
    B and of C name D, and D (not empty) holds none, the output for A is: B
    expanded with D in it, then C expanded with D in it.  The content of D
    stands twice in it, once per branch, and no recursive-loop marker is
    emitted: the set of visited files that reaches C does not hold what the
    branch of B added. *)
Theorem diamond_expands_twice (r : revision) (fileMap : Obj.t FileNode)
    (fB fC fD cA cB cC cD : string) (nB nC nD : FileNode) :
  find_file r fileMap fB = Some nB → content nB = Some cB →
  find_file r fileMap fC = Some nC → content nC = Some cC →
  find_file r fileMap fD = Some nD → content nD = Some cD → cD ≠ EmptyString →
  imports cA = [fB; fC] → imports cB = [fD] → imports cC = [fD] → imports cD = [] →
  (∀ fuel, length fileMap < fuel →
     resolve r fileMap fuel cA ∅ = Some (render (import_tree r cA fileMap ∅)))
  ∧ resolveLatexImports r cA fileMap ∅ = render (import_tree r cA fileMap ∅)
  ∧ skeleton (import_tree r cA fileMap ∅)
      = [NExpand fB [NExpand fD []]; NExpand fC [NExpand fD []]]
  ∧ bodies fD (import_tree r cA fileMap ∅) = [cD; cD]
  ∧ loops (import_tree r cA fileMap ∅) = [].
Proof.
  intros HB HcB HC HcC HD HcD HneD HiA HiB HiC HiD.
  pose proof (imports_nonempty _ _ _ HiB) as HneB.
  pose proof (imports_nonempty _ _ _ HiC) as HneC.
  assert (fB ≠ fD) as HBD by (intros ->; congruence).
  assert (fC ≠ fD) as HCD by (intros ->; congruence).
  split; [|split; [apply resolveLatexImports_render|] ].
  { intros fuel Hlt.
    destruct (resolve_terminates r fileMap cA ∅) as (t & Hfuel & -> & _ & _).
    by apply Hfuel. }
  destruct (resolve_terminates r fileMap cA ∅) as (t & Hfuel & -> & _ & _).
  destruct (Hfuel (S (S (S (length fileMap)))) ltac:(lia)) as [Ht _].
  step_tree Ht HiA.
  expand_in Ht fB nB cB HtB tB. expand_in Ht fC nC cC HtC tC. injection Ht as Ht.
  step_tree HtB HiB. expand_in HtB fD nD cD HtBD tBD. injection HtB as HtB.
  step_tree HtC HiC. expand_in HtC fD nD cD HtCD tCD. injection HtC as HtC.
  rewrite resolve_tree_no_imports in HtBD, HtCD by done.
  injection HtBD as <-. injection HtCD as <-.
  rewrite <- (skeleton_structural t), <- (loops_structural t), <- (bodies_structural _ t), <- Ht.
  unfold skeleton, loops, bodies. simpl.
  apply String.eqb_neq in HBD, HCD. rewrite HBD, HCD. simpl.
  fold (skeleton tB) (skeleton tC) (loops tB) (loops tC) (bodies fD tB) (bodies fD tC).
  rewrite <- (skeleton_structural tB), <- (loops_structural tB), <- (bodies_structural _ tB), <- HtB.
  rewrite <- (skeleton_structural tC), <- (loops_structural tC), <- (bodies_structural _ tC), <- HtC.
  unfold skeleton, loops, bodies. simpl. rewrite String.eqb_refl. simpl.
  fold (skeleton (map NText (list_ascii_of_string cD)))
       (loops (map NText (list_ascii_of_string cD)))
       (bodies fD (map NText (list_ascii_of_string cD)))
       (render (map NText (list_ascii_of_string cD))).
  by rewrite skeleton_text, loops_text, bodies_text, render_text.
Qed.

Lemma diamond_expands_twice_witness :
  (∀ fuel, length diamond_map < fuel →
     resolve ByName diamond_map fuel "\input{B} and \input{C}" ∅
       = Some (render (import_tree ByName "\input{B} and \input{C}" diamond_map ∅)))
  ∧ resolveLatexImports ByName "\input{B} and \input{C}" diamond_map ∅
      = render (import_tree ByName "\input{B} and \input{C}" diamond_map ∅)
  ∧ skeleton (import_tree ByName "\input{B} and \input{C}" diamond_map ∅)
      = [NExpand "B.tex" [NExpand "D.tex" []]; NExpand "C.tex" [NExpand "D.tex" []]]
  ∧ bodies "D.tex" (import_tree ByName "\input{B} and \input{C}" diamond_map ∅)
      = ["shared"; "shared"]
  ∧ loops (import_tree ByName "\input{B} and \input{C}" diamond_map ∅) = [].
Proof.
  apply (diamond_expands_twice ByName diamond_map "B.tex" "C.tex" "D.tex"
           "\input{B} and \input{C}" "b: \input{D}" "c: \input{sub/D.tex}" "shared"
           (tex "B.tex" "b: \input{D}") (tex "C.tex" "c: \input{sub/D.tex}")
           (tex "D.tex" "shared")); done.
Defined.

Example diamond_output :
  resolveLatexImports ByName "\input{B} and \input{C}" diamond_map ∅ =
    begin_marker "B.tex" +:+ "b: " +:+ begin_marker "D.tex" +:+ "shared"
      +:+ end_marker "D.tex" +:+ end_marker "B.tex" +:+ " and "
      +:+ begin_marker "C.tex" +:+ "c: " +:+ begin_marker "D.tex" +:+ "shared"
      +:+ end_marker "D.tex" +:+ end_marker "C.tex"
  ∧ occurrences (resolveLatexImports ByName "\input{B} and \input{C}" diamond_map ∅)
      "shared" = 2
  ∧ occurrences (resolveLatexImports ByName "\input{B} and \input{C}" diamond_map ∅)
      "% Recursive loop detected: " = 0.
Proof. by vm_compute. Qed.

(** C2, as stated, fails: A includes B and C, both include D, and D
    includes A in turn; the output for A holds four recursive-loop
    markers. *)
Lemma diamond_back_edge_counterexample :
  imports "\input{B}\input{C}" = ["B.tex"; "C.tex"]
  ∧ imports "\input{D}" = ["D.tex"]
  ∧ imports "d\input{A}" = ["A.tex"]
  ∧ skeleton (import_tree ByName "\input{B}\input{C}" diamond_back_map ∅)
      = [NExpand "B.tex"
           [NExpand "D.tex"
              [NExpand "A.tex"
                 [NLoop "B.tex"; NExpand "C.tex" [NLoop "D.tex"]]]];
         NExpand "C.tex"
           [NExpand "D.tex"
              [NExpand "A.tex"
                 [NExpand "B.tex" [NLoop "D.tex"]; NLoop "C.tex"]]]]
  ∧ occurrences (resolveLatexImports ByName "\input{B}\input{C}" diamond_back_map ∅)
      "% Recursive loop detected: " = 4.
Proof. by vm_compute. Qed.




Lemma strip_prefix_self p rest : strip_prefix p (p +:+ rest) = Some rest.
Proof.
  induction p as [|c p IH]; [done|]. rewrite append_cons. simpl.
  by rewrite Ascii.eqb_refl.
Qed.

Lemma scan_free_prefix c lit k a s :
  includes a (String c EmptyString) = false →
  scan (lit_then (String c lit) k) (a +:+ s)
    = map Lit (list_ascii_of_string a) ++ scan (lit_then (String c lit) k) s.
Proof.
  induction a as [|x a IH]; intros Ha; [done|].
  apply includes_char_cons in Ha as [Hx Ha]. rewrite append_cons, scan_lit.
  - simpl. by rewrite IH.
  - unfold lit_then. simpl. by rewrite Hx.
Qed.

(** One match of an expression that begins with a literal, between a text
    free of the first character of the literal and a text without match. *)
Lemma replace_opt_single c lit k cb a w g rest out :
  includes a (String c EmptyString) = false →
  lit_then (String c lit) k (w +:+ rest) = Some (g, rest) → w ≠ EmptyString →
  no_match (lit_then (String c lit) k) rest →
  cb w g = Some out →
  replace_opt (lit_then (String c lit) k) cb (a +:+ w +:+ rest) = Some (a +:+ out +:+ rest).
Proof.
  intros Ha Hm Hw Hrest Hcb. unfold replace_opt.
  rewrite (scan_free_prefix c lit k a _ Ha), (scan_hit _ _ w g rest Hm eq_refl Hw).
  rewrite (no_match_scan _ _ Hrest), foldr_app. simpl. rewrite Hcb.
  assert (foldr (fun p acc => match p with
                              | Lit c => String c <$> acc
                              | Hit w g => out ← cb w g; rest ← acc; Some (out +:+ rest)
                              end)
            (Some EmptyString) (map Lit (list_ascii_of_string rest)) = Some rest) as ->.
  { clear. induction rest as [|x rest IH]; simpl; [done|]. by rewrite IH. }
  simpl. clear. induction a as [|x a IH]; simpl; [done|]. by rewrite IH.
Qed.

Lemma brace_group_spec g rest :
  g ≠ EmptyString → includes g "}" = false →
  brace_group ("{" +:+ g +:+ "}" +:+ rest) = Some (g, rest).
Proof.
  intros Hg Hfree. change ("{" +:+ g +:+ "}" +:+ rest) with (String "{" (g +:+ String "}" rest)).
  unfold brace_group. rewrite (span_not_free "}" g rest Hfree). by destruct g.
Qed.

(** The inclusion expression on a directive of either name. *)
Lemma import_re_directive d p rest :
  d = "input" ∨ d = "include" → p ≠ EmptyString → includes p "}" = false →
  import_re (("\" +:+ d +:+ "{" +:+ p +:+ "}") +:+ rest) = Some (p, rest).
Proof.
  intros Hd Hp Hfree. rewrite !append_assoc.
  unfold import_re, lit_then at 1. rewrite strip_prefix_self. cbn [mbind option_bind].
  unfold alt, lit_then. destruct Hd as [-> | ->].
  - rewrite strip_prefix_self. cbn [mbind option_bind]. by rewrite brace_group_spec.
  - assert (strip_prefix "input" ("include" +:+ "{" +:+ p +:+ "}" +:+ rest) = None) as ->
      by reflexivity.
    cbn [mbind option_bind]. rewrite strip_prefix_self. cbn [mbind option_bind].
    by rewrite brace_group_spec.
Qed.

Section EmptyFile.

Variable r : revision.
Variable fileMap : Obj.t FileNode.
Variable filename : string.

Hypothesis no_content :
  ∀ f, find_file r fileMap filename = Some f → truthy (content f) = false.



End EmptyFile.



Example empty_file_output :
  resolveLatexImports ByName "x\input{ch1}y" empty_map ∅
    = "x" +:+ missing_marker "ch1.tex" +:+ "y".
Proof. by vm_compute. Qed.



Example self_include_output :
  resolveLatexImports ByName "top \input{main} end" self_map ∅
    = "top " +:+ begin_marker "main.tex" +:+ "top " +:+ loop_marker "main.tex"
        +:+ " end" +:+ end_marker "main.tex" +:+ " end".
Proof. by vm_compute. Qed.

(** ** Properties of the compile action *)

Lemma FileNode_tree_ind (P : FileNode → Prop) :
  (∀ i nm ty c cs o,
      match cs with Some l => Forall P l | None => True end →
      P (mkFileNode i nm ty c cs o)) →
  ∀ n, P n.
Proof.
  intros H. fix IH 1. intros [i nm ty c cs o]. apply H.
  destruct cs as [l|]; [|exact I].
  induction l as [|x l IHl]; constructor; [apply IH|exact IHl].
Qed.

Lemma obj_set_elem {V} (o : Obj.t V) k v k' v' :
  (k', v') ∈ Obj.set o k v → (k', v') ∈ o ∨ (k', v') = (k, v).
Proof.
  induction o as [|[k0 v0] o IH]; simpl.
  - intros H. apply list_elem_of_singleton in H. by right.
  - destruct (String.eqb_spec k0 k) as [->|Hne]; intros H.
    + apply elem_of_cons in H as [->|H]; [by right|]. left. by apply list_elem_of_further.
    + apply elem_of_cons in H as [->|H]; [left; apply list_elem_of_here|].
      destruct (IH H) as [Hin | ->]; [left; by apply list_elem_of_further|by right].
Qed.

Lemma obj_get_elem {V} (o : Obj.t V) k v : Obj.get o k = Some v → (k, v) ∈ o.
Proof.
  induction o as [|[k0 v0] o IH]; simpl; [done|].
  destruct (String.eqb_spec k0 k) as [->|Hne].
  - intros [= ->]. apply list_elem_of_here.
  - intros H. by apply list_elem_of_further, IH.
Qed.

Lemma fold_flatten_elem (l : list FileNode) :
  Forall (fun n => ∀ acc k v, (k, v) ∈ flattenProjectFiles n acc →
                              (k, v) ∈ acc ∨ (v ∈ nodes n ∧ k = name v)) l →
  ∀ acc k v, (k, v) ∈ fold_left (fun a c => flattenProjectFiles c a) l acc →
             (k, v) ∈ acc ∨ (v ∈ flat_map nodes l ∧ k = name v).
Proof.
  induction l as [|x l IHl]; simpl; intros Hall acc k v H; [by left|].
  apply Forall_cons in Hall as [Hx Hl].
  destruct (IHl Hl _ _ _ H) as [Hin | [Hin Hk] ].
  - destruct (Hx _ _ _ Hin) as [Hacc | [Hn Hk] ]; [by left|].
    right. split; [|done]. apply elem_of_app. by left.
  - right. split; [|done]. apply elem_of_app. by right.
Qed.

(** Every entry of the flattened map is an entry of the accumulator or a node
    of the tree under its own name. *)
Lemma flattenProjectFiles_elem n :
  ∀ acc k v, (k, v) ∈ flattenProjectFiles n acc →
             (k, v) ∈ acc ∨ (v ∈ nodes n ∧ k = name v).
Proof.
  induction n as [i nm ty c cs o IH] using FileNode_tree_ind. intros acc k v.
  destruct ty.
  - simpl. intros H. apply obj_set_elem in H as [H | [= -> ->] ]; [by left|].
    right. split; [apply list_elem_of_here|done].
  - destruct cs as [l|]; simpl; [|by left].
    intros H. destruct (fold_flatten_elem l IH _ _ _ H) as [Hin | [Hin Hk] ]; [by left|].
    right. split; [|done]. by apply list_elem_of_further.
Qed.

Lemma findNode_at_elem n : ∀ i f, findNode_at n i = Some f → f ∈ nodes n.
Proof.
  induction n as [i0 nm ty c cs o IH] using FileNode_tree_ind. intros i f.
  simpl. destruct (String.eqb i0 i).
  - intros [= <-]. apply list_elem_of_here.
  - destruct cs as [l|]; [|done]. intros H. apply list_elem_of_further.
    induction l as [|x l IHl]; [done|]. apply Forall_cons in IH as [Hx Hl].
    simpl. apply elem_of_app.
    destruct (findNode_at x i) as [found|] eqn:Hfound.
    + injection H as ->. left. by apply (Hx i).
    + right. by apply IHl.
Qed.

Lemma findNode_elem l i f : findNode l i = Some f → f ∈ flat_map nodes l.
Proof.
  induction l as [|x l IH]; simpl; [done|]. intros H. apply elem_of_app.
  destruct (findNode_at x i) as [found|] eqn:Hfound.
  - injection H as ->. left. by apply (findNode_at_elem x i).
  - right. by apply IH.
Qed.

(** The entry file that a compile picks is a node of the project whose name
    ends in [.tex]. *)
Lemma find_main_spec p activeFileId m :
  find_main p activeFileId = Some m →
  m ∈ nodes (root p) ∧ endsWith (name m) ".tex" = true.
Proof.
  unfold find_main.
  assert (∀ f, List.find (fun f => endsWith (name f) ".tex")
                 (Obj.values (flattenProjectFiles (root p) [])) = Some f →
               f ∈ nodes (root p) ∧ endsWith (name f) ".tex" = true) as Hfind.
  { intros f H. apply find_some in H as [Hin Hends]. split; [|done].
    apply in_map_iff in Hin as ([k v] & <- & Hin). apply list_elem_of_In in Hin.
    apply flattenProjectFiles_elem in Hin as [Hin|[Hin _]]; [|done].
    by apply elem_of_nil in Hin. }
  destruct (Obj.get _ "main.tex") as [mainFile|] eqn:Hget.
  - intros [= <-]. apply obj_get_elem, flattenProjectFiles_elem in Hget as [Hin|[Hin Hname]].
    + by apply elem_of_nil in Hin.
    + split; [done|]. by rewrite <- Hname.
  - destruct (findNode _ activeFileId) as [activeNode|] eqn:Hactive; [|apply Hfind].
    destruct (endsWith (name activeNode) ".tex") eqn:Hends; [|apply Hfind].
    intros [= <-]. split; [|done].
    apply findNode_elem in Hactive. destruct (root p) as [i nm ty c [l|] o]; simpl in *.
    + by apply list_elem_of_further.
    + by apply elem_of_nil in Hactive.
Qed.

(** C7 (amended). When no node of the open project with a name ending in
    [.tex] has content (an empty file set, for one), the compile runs no
    stage: it stores exactly one entry in the log, of severity error, and
    leaves the compiled content and the assets as they were. *)
Theorem no_entry_file_one_error (projects : list Project) (p : Project) (now : nat)
    (st : AppState) :
  activeProject projects st = Some p →
  (∀ n, n ∈ nodes (root p) → endsWith (name n) ".tex" = true → truthy (content n) = false) →
  handleRecompile projects now st
    = mkAppState (view st) (activeProjectId st) (activeFileId st) false
        [no_main_file_log now] (compiledContent st) (previewAssets st)
  ∧ log_type (no_main_file_log now) = error.
Proof.
  intros Hp H. split; [|done]. unfold handleRecompile. rewrite Hp.
  destruct (find_main p (activeFileId st)) as [m|] eqn:Hm; [|done].
  apply find_main_spec in Hm as [Hin Hends]. by rewrite (H m Hin Hends).
Qed.

Lemma no_entry_file_one_error_witness :
  handleRecompile [empty_project] 7 (handleOpenProject [empty_project] "p1" initial_state)
    = mkAppState editor (Some "p1") EmptyString false [no_main_file_log 7] EmptyString []
  ∧ log_type (no_main_file_log 7) = error.
Proof.
  apply (no_entry_file_one_error [empty_project] empty_project 7
           (handleOpenProject [empty_project] "p1" initial_state) eq_refl).
  intros n Hn. simpl in Hn. apply list_elem_of_singleton in Hn as ->. done.
Defined.

(** C7, as stated, fails: a project with a main file is opened, which stores
    its content; then a project with an empty file set is opened and
    compiled.  The compile stores the error entry and the content of the
    first project is still what the preview is given. *)
Lemma stale_content_counterexample :
  let projects := [thesis_project; empty_project] in
  let st := handleOpenProject projects "p1" (handleOpenProject projects "p0" initial_state) in
  activeProject projects st = Some empty_project
  ∧ flattenProjectFiles (root empty_project) [] = []
  ∧ compiledContent (handleRecompile projects 7 st) = "\documentclass{article} Old text"
  ∧ compiledContent (handleRecompile projects 7 st) ≠ EmptyString
  ∧ logs (handleRecompile projects 7 st) = [no_main_file_log 7].
Proof. by vm_compute. Qed.

(** ** Properties of the preview: headings *)

Lemma starred_includes lvl w :
  startsWith w (starred_directive lvl) = true → includes w "*" = true.
Proof.
  unfold startsWith. destruct (strip_prefix _ w) as [rest|] eqn:H; [|done].
  intros _. apply strip_prefix_eq in H as ->. apply includes_app. by destruct lvl.
Qed.

(** C4. While the headings of any text are numbered, every callback
    invocation on a starred heading, at any of the three levels, leaves the
    three counters as they were, and its heading carries no number: the
    output is the heading element around the title alone. *)
Theorem starred_heading_frame (code : string) (lvl : level) (st : SectionCounters)
    (mtch title : string) :
  (st, mtch, title) ∈ heading_calls lvl code →
  startsWith mtch (starred_directive lvl) = true →
  heading_cb lvl st mtch title = (heading_html lvl EmptyString title, st).
Proof.
  unfold heading_calls. intros Hin Hstar.
  pose proof (starred_includes lvl mtch Hstar) as Hinc.
  (* the chapter pass never sees a section or subsection counted *)
  destruct (calls_invariant (fun st => sectionCount st = 0 ∧ subsectionCount st = 0)
              chapter_cb (scan chapter_re code)
              ltac:(by intros ? ? ? [_ ?]) no_headings ltac:(done)) as [Hc1 Hf1].
  destruct (replace_pieces chapter_cb (scan chapter_re code) no_headings) as [s1 st1].
  (* the section pass never sees a subsection counted *)
  destruct (calls_invariant (fun st => subsectionCount st = 0)
              section_cb (scan section_re s1)
              ltac:(done) st1 ltac:(by destruct Hf1)) as [Hc2 _].
  destruct (replace_pieces section_cb (scan section_re s1) st1) as [s2 st2].
  destruct lvl; simpl.
  - destruct (Hc1 _ _ _ Hin) as [Hs _]. destruct st as [ch sec sub]. simpl in Hs.
    unfold chapter_cb. rewrite Hinc. simpl. by subst.
  - pose proof (Hc2 _ _ _ Hin) as Hs. destruct st as [ch sec sub]. simpl in Hs.
    unfold section_cb. rewrite Hinc. simpl. by subst.
  - destruct st as [ch sec sub]. unfold subsection_cb. by rewrite Hinc.
Qed.

Lemma starred_heading_frame_witness :
  heading_cb Section (mkCounters 1 1 0) "\section*{Thanks}" "Thanks"
    = (h2 EmptyString "Thanks", mkCounters 1 1 0).
Proof.
  apply (starred_heading_frame "\chapter{One}\section{A}\section*{Thanks}\subsection{B}"
           Section (mkCounters 1 1 0) "\section*{Thanks}" "Thanks").
  - vm_compute. apply list_elem_of_further, list_elem_of_here.
  - reflexivity.
Defined.

(** C3 (the code at the failing input). Three chapters with a section
    between the second and the third: the chapters are labelled 1, 2, 3, and
    the section is labelled 3.1.  For every text, the pass over the sections
    runs when all chapters have been counted: each section is numbered with
    the chapter counter at its final value. *)
Theorem section_numbered_after_all_chapters :
  number_headings "\chapter{A}\chapter{B}\section{S}\chapter{C}"
    = (h1 "1. " "A" +:+ h1 "2. " "B" +:+ h2 "3.1 " "S" +:+ h1 "3. " "C",
       mkCounters 3 1 0)
  ∧ ∀ code st mtch title,
      (st, mtch, title) ∈ heading_calls Section code →
      chapterCount st
        = chapterCount (snd (replace_st chapter_re chapter_cb code no_headings)).
Proof.
  split; [by vm_compute|].
  intros code st mtch title. unfold heading_calls, replace_st.
  destruct (replace_pieces chapter_cb (scan chapter_re code) no_headings) as [s1 st1].
  destruct (calls_invariant (fun st => chapterCount st = chapterCount st1)
              section_cb (scan section_re s1)
              ltac:(done) st1 ltac:(done)) as [Hc _].
  destruct (replace_pieces section_cb (scan section_re s1) st1) as [s2 st2].
  simpl. apply Hc.
Qed.

(** The sections of a text are numbered through, whatever chapter they
    stand in: the reset of the section counter at a chapter happens before
    any section is counted. *)
Example sections_not_reset_by_chapter :
  fst (number_headings "\chapter{A}\section{S}\chapter{B}\section{T}")
    = h1 "1. " "A" +:+ h2 "2.1 " "S" +:+ h1 "2. " "B" +:+ h2 "2.2 " "T".
Proof. by vm_compute. Qed.

(** ** Properties of the preview: images *)






(** ** Properties of the preview: math *)

(** The inline expression in a double-dollar span: it passes the first
    dollar sign, matches from the second to the third, and leaves the
    fourth. *)
Lemma inline_scan_double_dollar e :
  e ≠ EmptyString → includes e "$" = false →
  scan inline_math_re ("$$" +:+ e +:+ "$$")
    = [Lit "$"; Hit ("$" +:+ e +:+ "$") e; Lit "$"].
Proof.
  intros Hne He.
  change ("$$" +:+ e +:+ "$$") with (String "$" ("$" +:+ e +:+ "$$")).
  rewrite scan_lit by done. f_equal.
  rewrite (scan_hit inline_math_re _ ("$" +:+ e +:+ "$") e "$"); [done| | |done].
  - change ("$" +:+ e +:+ "$$") with (String "$" (e +:+ String "$" "$")).
    unfold inline_math_re. rewrite (span_not_free "$" e "$" He). by destruct e.
  - by rewrite !append_assoc.
Qed.

Section MathFacts.

Variable katex : string -> bool -> option string.

Lemma display_scan_wrapped h :
  includes h "$" = false →
  scan display_math_re ("$" +:+ h +:+ "$")
    = map Lit (list_ascii_of_string ("$" +:+ h +:+ "$")).
Proof.
  intros Hh. apply no_match_scan, no_match_b_spec.
  rewrite append_cons, append_nil_l. simpl.
  assert (display_math_re (String "$" (h +:+ "$")) = None) as ->.
  { destruct h as [|c h]; [done|]. apply includes_char_cons in Hh as [Hc _].
    rewrite append_cons. unfold display_math_re, lit_then. simpl. by rewrite Hc. }
  by apply (no_match_b_free "$" "$" (until "$$") h "$").
Qed.

Lemma bracket_scan_wrapped h :
  includes h "\" = false →
  scan bracket_math_re ("$" +:+ h +:+ "$")
    = map Lit (list_ascii_of_string ("$" +:+ h +:+ "$")).
Proof.
  intros Hh. apply no_match_scan, no_match_b_spec.
  rewrite append_cons, append_nil_l. simpl.
  by apply (no_match_b_free "\" "[" (until "\]") h "$").
Qed.

(** C5 (the code at the failing input). A double-dollar span around a
    non-empty [e] free of dollar signs, [$$e$$] for one: the inline pass runs
    first and takes [$e$] out of the middle, so the output is the inline
    rendering of [e] between two dollar signs (the later passes find nothing
    in it, the rendering holding neither dollar sign nor backslash), and not
    the display block. *)
Theorem double_dollar_rendered_inline (e html : string) :
  e ≠ EmptyString → includes e "$" = false →
  katex e false = Some html →
  includes html "$" = false → includes html "\" = false →
  replace inline_math_re (inline_math_cb katex) ("$$" +:+ e +:+ "$$")
    = "$" +:+ html +:+ "$"
  ∧ render_math katex ("$$" +:+ e +:+ "$$") = "$" +:+ html +:+ "$"
  ∧ render_math katex ("$$" +:+ e +:+ "$$")
    ≠ display_math_cb katex ("$$" +:+ e +:+ "$$") e.
Proof.
  intros Hne He Hk Hd Hb.
  assert (replace inline_math_re (inline_math_cb katex) ("$$" +:+ e +:+ "$$")
          = "$" +:+ html +:+ "$") as Hinline.
  { unfold replace. rewrite inline_scan_double_dollar by done.
    simpl. unfold inline_math_cb. by rewrite Hk. }
  assert (render_math katex ("$$" +:+ e +:+ "$$") = "$" +:+ html +:+ "$") as Hall.
  { unfold render_math. rewrite Hinline.
    rewrite (replace_literal display_math_re) by by apply display_scan_wrapped.
    by rewrite (replace_literal bracket_math_re) by by apply bracket_scan_wrapped. }
  split; [done|split; [done|] ].
  rewrite Hall. unfold display_math_cb.
  destruct (katex e true); by rewrite !append_cons.
Qed.

End MathFacts.

Lemma double_dollar_rendered_inline_witness :
  replace inline_math_re (inline_math_cb demo_katex) "$$e$$" = "$<katex>e</katex>$"
  ∧ render_math demo_katex "$$e$$" = "$<katex>e</katex>$"
  ∧ render_math demo_katex "$$e$$" ≠ display_math_cb demo_katex "$$e$$" "e".
Proof.
  apply (double_dollar_rendered_inline demo_katex "e" "<katex>e</katex>"); done.
Defined.

(** The bracket form is not touched by the inline pass and becomes a display
    block. *)
Example bracket_display_block :
  render_math demo_katex "\[e\]" = display_math_cb demo_katex "\[e\]" "e".
Proof. by vm_compute. Qed.

(** ** Properties of the tree helpers *)

Lemma find_app_opt {A} (f : A → bool) (l1 l2 : list A) :
  List.find f (l1 ++ l2)
    = match List.find f l1 with Some x => Some x | None => List.find f l2 end.
Proof. induction l1 as [|x l1 IH]; simpl; [done|]. by destruct (f x). Qed.

Lemma findNode_at_find n i :
  findNode_at n i = List.find (fun x => String.eqb (id x) i) (nodes n).
Proof.
  induction n as [i0 nm ty c cs o IH] using FileNode_tree_ind.
  simpl. destruct (String.eqb i0 i); [done|].
  destruct cs as [l|]; [|done].
  induction l as [|x l IHl]; [done|]. apply Forall_cons in IH as [Hx Hl].
  simpl. rewrite find_app_opt, <- Hx. destruct (findNode_at x i); [done|]. by apply IHl.
Qed.

(** X1. [findNode] returns the first node with the id in the depth-first
    listing of the trees, a node before what is below it; [null] when the
    listing has no node with the id. *)
Theorem findNode_first_in_preorder (l : list FileNode) (i : string) :
  findNode l i = List.find (fun x => String.eqb (id x) i) (flat_map nodes l).
Proof.
  induction l as [|x l IH]; simpl; [done|].
  rewrite find_app_opt, <- findNode_at_find. destruct (findNode_at x i); [done|]. apply IH.
Qed.

Lemma obj_get_set {V} (o : Obj.t V) k v k' :
  Obj.get (Obj.set o k v) k' = if String.eqb k k' then Some v else Obj.get o k'.
Proof.
  induction o as [|[k0 v0] o IH]; simpl; [done|].
  destruct (String.eqb_spec k0 k) as [->|Hne]; simpl.
  - by destruct (String.eqb k k').
  - rewrite IH. destruct (String.eqb_spec k0 k') as [->|Hne']; [|done].
    by destruct (String.eqb_spec k k') as [->|_].
Qed.

Lemma fold_flatten_get (l : list FileNode) k :
  Forall (fun n => ∀ acc, Obj.get (flattenProjectFiles n acc) k
                          = match last_named k n with
                            | Some f => Some f
                            | None => Obj.get acc k
                            end) l →
  ∀ acc, Obj.get (fold_left (fun a c => flattenProjectFiles c a) l acc) k
         = match last (List.filter (fun f => String.eqb (name f) k) (flat_map files_of l)) with
           | Some f => Some f
           | None => Obj.get acc k
           end.
Proof.
  induction l as [|x l IHl]; intros Hall acc; simpl; [done|].
  apply Forall_cons in Hall as [Hx Hl]. rewrite (IHl Hl), List.filter_app, last_app.
  destruct (last (List.filter _ (flat_map files_of l))); [done|]. apply Hx.
Qed.

Lemma flattenProjectFiles_get n k :
  ∀ acc, Obj.get (flattenProjectFiles n acc) k
         = match last_named k n with Some f => Some f | None => Obj.get acc k end.
Proof.
  induction n as [i nm ty c cs o IH] using FileNode_tree_ind. intros acc.
  destruct ty.
  - unfold last_named. simpl. rewrite obj_get_set. by destruct (String.eqb nm k).
  - destruct cs as [l|]; [|done]. unfold last_named. simpl. apply fold_flatten_get.
    exact IH.
Qed.

Lemma files_of_file n : ∀ f, f ∈ files_of n → type f = file ∧ f ∈ nodes n.
Proof.
  induction n as [i nm ty c cs o IH] using FileNode_tree_ind. intros f.
  destruct ty; simpl.
  - intros ->%list_elem_of_singleton. split; [done|apply list_elem_of_here].
  - destruct cs as [l|]; [|by intros ?%elem_of_nil].
    intros Hf. cut (type f = file ∧ f ∈ flat_map nodes l).
    { intros [? ?]. split; [done|by apply list_elem_of_further]. }
    induction l as [|x l IHl]; [by apply elem_of_nil in Hf|].
    apply Forall_cons in IH as [Hx Hl]. simpl in Hf. apply elem_of_app in Hf as [Hf|Hf].
    + destruct (Hx f Hf). split; [done|]. simpl. apply elem_of_app. by left.
    + destruct (IHl Hl Hf). split; [done|]. simpl. apply elem_of_app. by right.
Qed.

Lemma last_named_spec k n f :
  last_named k n = Some f → name f = k ∧ type f = file ∧ f ∈ nodes n.
Proof.
  unfold last_named. intros H. apply last_Some in H as [l' H].
  assert (In f (List.filter (fun f => String.eqb (name f) k) (files_of n))) as Hin.
  { rewrite H. apply in_or_app. right. by left. }
  apply filter_In in Hin as [Hin Hname]. apply String.eqb_eq in Hname.
  apply list_elem_of_In, files_of_file in Hin as [? ?]. done.
Qed.

(** X2. Looking up, in the flattened map of a tree, a name that ends in
    [.tex] (the names that the compile looks up) gives the last file of that
    name that the depth-first walk reaches: a later file takes the place of
    an earlier one of the same name.  It gives nothing for a name that no
    reachable file bears, and what it gives is a node of the tree of type
    file with that name, never a folder. *)
Theorem flatten_lookup_last_file (rt : FileNode) (k : string) :
  endsWith k ".tex" = true →
  Obj.get (flattenProjectFiles rt []) k = last_named k rt
  ∧ match Obj.get (flattenProjectFiles rt []) k with
    | Some f => name f = k ∧ type f = file ∧ f ∈ nodes rt
    | None => True
    end.
Proof.
  intros _.
  assert (Obj.get (flattenProjectFiles rt []) k = last_named k rt) as H.
  { rewrite flattenProjectFiles_get. by destruct (last_named k rt). }
  split; [done|]. rewrite H. destruct (last_named k rt) as [f|] eqn:Hf; [|done].
  by apply last_named_spec in Hf.
Qed.

Lemma flatten_lookup_last_file_witness :
  Obj.get (flattenProjectFiles (root sample_project) []) "main.tex" = Some (tex "main.tex" "outer")
  ∧ name (tex "main.tex" "outer") = "main.tex"
  ∧ type (tex "main.tex" "outer") = file
  ∧ tex "main.tex" "outer" ∈ nodes (root sample_project).
Proof.
  destruct (flatten_lookup_last_file (root sample_project) "main.tex" eq_refl) as [Hget Hnode].
  split; [exact Hget|]. rewrite Hget in Hnode. exact Hnode.
Defined.

Lemma flatten_key_is_name rt k v : (k, v) ∈ flattenProjectFiles rt [] → k = name v.
Proof.
  intros H. apply flattenProjectFiles_elem in H as [H|[_ H] ]; [|done].
  by apply elem_of_nil in H.
Qed.

Lemma find_by_name_get (m : Obj.t FileNode) k :
  (∀ k' v, (k', v) ∈ m → k' = name v) →
  List.find (fun f => String.eqb (name f) k) (Obj.values m) = Obj.get m k.
Proof.
  induction m as [|[k0 v0] m IH]; intros H; simpl; [done|].
  rewrite <- (H k0 v0) by apply list_elem_of_here.
  destruct (String.eqb k0 k); [done|]. apply IH. intros k' v Hin. apply H.
  by apply list_elem_of_further.
Qed.

Lemma resolve_find_ext r r' (m : Obj.t FileNode) :
  (∀ k, find_file r m k = find_file r' m k) →
  ∀ fuel text processed, resolve r m fuel text processed = resolve r' m fuel text processed.
Proof.
  intros H fuel. induction fuel as [|fuel IH]; intros text processed; simpl; [done|].
  apply replace_opt_ext. intros w g. unfold import_cb. rewrite H.
  destruct (decide _); [done|]. destruct (find_file r' m _) as [f|]; [|done].
  destruct (truthy (content f)); [|done]. by rewrite IH.
Qed.

(** X3. On the file map of a project tree the two revisions of the resolver
    return the same text, for every entry text and every set of visited
    files: searching the values of the map for a name and reading the map
    under the name find the same file, every key of the map being the name
    of its value. *)
Theorem revisions_agree_on_flattened_map (rt : FileNode) (text : string)
    (processed : gset string) :
  resolveLatexImports ByName text (flattenProjectFiles rt []) processed
    = resolveLatexImports ByKey text (flattenProjectFiles rt []) processed.
Proof.
  unfold resolveLatexImports. rewrite (resolve_find_ext ByName ByKey); [done|].
  intros filename. apply find_by_name_get. intros k' v. apply flatten_key_is_name.
Qed.

(** The entry file of a compile is [main.tex] wherever it lies in the tree. *)
Lemma find_main_last_named p a f :
  last_named "main.tex" (root p) = Some f → find_main p a = Some f.
Proof.
  intros H. unfold find_main. by rewrite flattenProjectFiles_get, H.
Qed.

(** ** Properties of the edits of the tree *)

Lemma updateNode_at_find_same n i ch :
  set_id ch = None →
  findNode_at (updateNode_at n i ch) i = (fun x => spread x ch) <$> findNode_at n i.
Proof.
  intros Hid. induction n as [i0 nm ty c cs o IH] using FileNode_tree_ind.
  simpl. destruct (String.eqb i0 i) eqn:Hi.
  - unfold spread. rewrite Hid. simpl. by rewrite Hi.
  - destruct cs as [l|]; simpl; rewrite Hi; [|done].
    induction l as [|x l IHl]; [done|]. apply Forall_cons in IH as [Hx Hl].
    simpl. rewrite Hx. destruct (findNode_at x i); [done|]. by apply IHl.
Qed.

Lemma updateNodeInTree_find_same l i ch :
  set_id ch = None →
  findNode (updateNodeInTree l i ch) i = (fun x => spread x ch) <$> findNode l i.
Proof.
  intros Hid. induction l as [|x l IH]; [done|]. simpl.
  rewrite (updateNode_at_find_same x i ch Hid). by destruct (findNode_at x i).
Qed.

Lemma fmap_fields_eq (a b : option FileNode) :
  fields <$> a = fields <$> b →
  (a = None ∧ b = None) ∨ (∃ x y, a = Some x ∧ b = Some y ∧ fields x = fields y).
Proof.
  destruct a as [x|], b as [y|]; simpl; intros H; try done.
  - right. exists x, y. split; [done|split; [done|congruence] ].
  - by left.
Qed.

Lemma updateNode_at_find_other n i j ch :
  set_id ch = None → set_children ch = None → i ≠ j →
  fields <$> findNode_at (updateNode_at n i ch) j = fields <$> findNode_at n j.
Proof.
  intros Hid Hcs Hij. induction n as [i0 nm ty c cs o IH] using FileNode_tree_ind.
  simpl. destruct (String.eqb_spec i0 i) as [->|Hi].
  - unfold spread. rewrite Hid, Hcs. simpl.
    destruct (String.eqb_spec i j) as [?|_]; [done|]. done.
  - destruct (String.eqb i0 j) eqn:Hj.
    + destruct cs as [l|]; simpl; by rewrite Hj.
    + destruct cs as [l|]; simpl; rewrite Hj; [|done].
      induction l as [|x l IHl]; [done|]. apply Forall_cons in IH as [Hx Hl].
      simpl. destruct (fmap_fields_eq _ _ Hx) as [ [-> ->] | (a & b & -> & -> & Hab) ].
      * by apply IHl.
      * simpl. by rewrite Hab.
Qed.

Lemma updateNodeInTree_find_other l i j ch :
  set_id ch = None → set_children ch = None → i ≠ j →
  fields <$> findNode (updateNodeInTree l i ch) j = fields <$> findNode l j.
Proof.
  intros Hid Hcs Hij. induction l as [|x l IH]; [done|]. simpl.
  pose proof (updateNode_at_find_other x i j ch Hid Hcs Hij) as Hx.
  destruct (fmap_fields_eq _ _ Hx) as [ [-> ->] | (a & b & -> & -> & Hab) ]; [done|].
  simpl. by rewrite Hab.
Qed.

Lemma updateNode_at_absent n i ch : findNode_at n i = None → updateNode_at n i ch = n.
Proof.
  induction n as [i0 nm ty c cs o IH] using FileNode_tree_ind.
  simpl. destruct (String.eqb i0 i); [done|].
  destruct cs as [l|]; [|done]. intros H. do 2 f_equal.
  induction l as [|x l IHl]; [done|]. apply Forall_cons in IH as [Hx Hl].
  simpl. destruct (findNode_at x i) eqn:Hfx; [done|]. by rewrite Hx, IHl.
Qed.

(** X4. Updating the node with an id and looking the id up again gives the
    node that was there with the changes laid over it, when the changes
    leave the id alone; when they leave the children alone as well, every
    other id still leads to a node with the fields it had. *)
Theorem update_then_find (l : list FileNode) (i : string) (ch : FileNodeChanges) :
  set_id ch = None →
  findNode (updateNodeInTree l i ch) i = (fun x => spread x ch) <$> findNode l i
  ∧ (set_children ch = None →
     ∀ j, j ≠ i → fields <$> findNode (updateNodeInTree l i ch) j = fields <$> findNode l j).
Proof.
  intros Hid. split; [by apply updateNodeInTree_find_same|].
  intros Hcs j Hj. by apply updateNodeInTree_find_other.
Qed.

Lemma update_then_find_witness :
  findNode (updateNodeInTree sample_tree "intro.tex" (content_change "New")) "intro.tex"
    = Some (tex "intro.tex" "New")
  ∧ fields <$> findNode (updateNodeInTree sample_tree "intro.tex" (content_change "New")) "d2"
    = fields <$> findNode sample_tree "d2".
Proof.
  destruct (update_then_find sample_tree "intro.tex" (content_change "New") eq_refl)
    as [Hsame Hother].
  split; [exact Hsame|]. apply (Hother eq_refl). done.
Defined.

(** X5. An update under an id that no node of the trees has changes
    nothing. *)
Theorem update_absent_id (l : list FileNode) (i : string) (ch : FileNodeChanges) :
  findNode l i = None → updateNodeInTree l i ch = l.
Proof.
  induction l as [|x l IH]; [done|]. simpl.
  destruct (findNode_at x i) eqn:Hx; [done|]. intros H.
  by rewrite (updateNode_at_absent x i ch Hx), IH.
Qed.

Lemma update_absent_id_witness :
  updateNodeInTree sample_tree "nowhere" (content_change "New") = sample_tree.
Proof. apply (update_absent_id sample_tree "nowhere" (content_change "New")). reflexivity. Defined.

(** ** Properties of the edit actions *)

Lemma find_map_same_id (F : Project → Project) pid (l : list Project) :
  (∀ q, project_id (F q) = project_id q) →
  List.find (fun q => String.eqb (project_id q) pid) (map F l)
    = F <$> List.find (fun q => String.eqb (project_id q) pid) l.
Proof.
  intros HF. induction l as [|q l IH]; [done|]. simpl. rewrite HF.
  by destruct (String.eqb (project_id q) pid).
Qed.

Lemma activeProject_id projects st p :
  activeProject projects st = Some p → activeProjectId st = Some (project_id p).
Proof.
  unfold activeProject. destruct (activeProjectId st) as [pid|]; [|done].
  intros H. apply find_some in H as [_ H]. apply String.eqb_eq in H. by subst.
Qed.

(** The open project after its root has been updated. *)
Lemma activeProject_updateProjectRoot projects st p f now :
  activeProject projects st = Some p →
  activeProject (updateProjectRoot projects (project_id p) f now) st
    = Some (mkProject (project_id p) (project_name p) (f (root p)) now (owner p)).
Proof.
  intros Hp. pose proof (activeProject_id _ _ _ Hp) as Hid.
  unfold activeProject in *. rewrite Hid in *. unfold updateProjectRoot.
  rewrite find_map_same_id.
  - rewrite Hp. simpl. by rewrite String.eqb_refl.
  - intros q. by destruct (String.eqb (project_id q) (project_id p)).
Qed.

Lemma updateProjectRoot_others projects pid f now q :
  project_id q ≠ pid → q ∈ updateProjectRoot projects pid f now ↔ q ∈ projects.
Proof.
  intros Hq. unfold updateProjectRoot. rewrite list_elem_of_fmap. split.
  - intros (q0 & -> & Hin). destruct (String.eqb_spec (project_id q0) pid) as [Heq|_]; [|done].
    simpl in Hq. by rewrite Heq in Hq.
  - intros Hin. exists q. split; [|done].
    by destruct (String.eqb_spec (project_id q) pid).
Qed.

(** X6. After text is typed into the editor, the open project holds the
    time of the edit, its node with the id of the active file reads back
    with the new content (and is otherwise as it was), every other id leads
    to a node with the fields it had, and the projects with another id are
    the ones that were there. *)
Theorem edit_reads_back (projects : list Project) (now : nat) (st : AppState)
    (newContent : string) (p : Project) :
  activeProject projects st = Some p → truthy (activeProjectId st) = true →
  ∃ p', activeProject (handleFileChange projects now st newContent) st = Some p'
    ∧ project_id p' = project_id p ∧ lastModified p' = now
    ∧ findNode (project_nodes p') (activeFileId st)
      = (fun x => spread x (content_change newContent))
          <$> findNode (project_nodes p) (activeFileId st)
    ∧ (∀ j, j ≠ activeFileId st →
            fields <$> findNode (project_nodes p') j = fields <$> findNode (project_nodes p) j)
    ∧ (∀ q, project_id q ≠ project_id p →
            q ∈ handleFileChange projects now st newContent ↔ q ∈ projects).
Proof.
  intros Hp Hact. pose proof (activeProject_id _ _ _ Hp) as Hid.
  unfold handleFileChange. rewrite Hact, Hid. simpl.
  eexists. split; [by apply activeProject_updateProjectRoot|].
  split; [done|split; [done|] ]. unfold project_nodes. simpl.
  split; [by apply updateNodeInTree_find_same|]. split.
  - intros j Hj. by apply updateNodeInTree_find_other.
  - intros q Hq. by apply updateProjectRoot_others.
Qed.

Lemma edit_reads_back_witness :
  ∃ p', activeProject (handleFileChange [sample_project] 5 sample_state "New") sample_state
        = Some p'
    ∧ project_id p' = "p7" ∧ lastModified p' = 5
    ∧ findNode (project_nodes p') "intro.tex" = Some (tex "intro.tex" "New")
    ∧ (∀ j, j ≠ "intro.tex" →
            fields <$> findNode (project_nodes p') j = fields <$> findNode sample_tree j)
    ∧ (∀ q, project_id q ≠ "p7" →
            q ∈ handleFileChange [sample_project] 5 sample_state "New" ↔ q ∈ [sample_project]).
Proof.
  exact (edit_reads_back [sample_project] 5 sample_state "New" sample_project eq_refl eq_refl).
Defined.

Lemma toggle_once projects now st i p n :
  activeProject projects st = Some p → truthy (activeProjectId st) = true →
  findNode (project_nodes p) i = Some n →
  ∃ p', activeProject (handleToggleFolder projects now st i) st = Some p'
    ∧ findNode (project_nodes p') i = Some (spread n (isOpen_change (not_isOpen n)))
    ∧ (∀ j, j ≠ i →
            fields <$> findNode (project_nodes p') j = fields <$> findNode (project_nodes p) j).
Proof.
  intros Hp Hact Hn. pose proof (activeProject_id _ _ _ Hp) as Hid.
  unfold handleToggleFolder. rewrite Hact, Hp. fold (project_nodes p). rewrite Hn, Hid. simpl.
  eexists. split; [by apply activeProject_updateProjectRoot|].
  unfold project_nodes in *. simpl. split.
  - rewrite updateNodeInTree_find_same by done. by rewrite Hn.
  - intros j Hj. by apply updateNodeInTree_find_other.
Qed.

(** X7. Toggling a folder of the open project sets its open flag to the
    negation of what it read as, and toggling it again brings the flag back
    to what it read as at first: an absent flag comes back as [false].  The
    fields of the nodes with another id are as they were. *)
Theorem toggle_twice (projects : list Project) (t1 t2 : nat) (st : AppState)
    (i : string) (p : Project) (n : FileNode) :
  activeProject projects st = Some p → truthy (activeProjectId st) = true →
  findNode (project_nodes p) i = Some n →
  ∃ p1 p2,
    activeProject (handleToggleFolder projects t1 st i) st = Some p1
    ∧ isOpen <$> findNode (project_nodes p1) i = Some (Some (negb (default false (isOpen n))))
    ∧ activeProject (handleToggleFolder (handleToggleFolder projects t1 st i) t2 st i) st
      = Some p2
    ∧ isOpen <$> findNode (project_nodes p2) i = Some (Some (default false (isOpen n)))
    ∧ (∀ j, j ≠ i →
            fields <$> findNode (project_nodes p2) j = fields <$> findNode (project_nodes p) j).
Proof.
  intros Hp Hact Hn.
  destruct (toggle_once projects t1 st i p n Hp Hact Hn) as (p1 & Hp1 & Hn1 & Hother1).
  destruct (toggle_once _ t2 st i p1 _ Hp1 Hact Hn1) as (p2 & Hp2 & Hn2 & Hother2).
  exists p1, p2. split; [done|]. split; [by rewrite Hn1|]. split; [done|]. split.
  - rewrite Hn2. simpl. unfold not_isOpen. simpl. by rewrite negb_involutive.
  - intros j Hj. by rewrite Hother2, Hother1.
Qed.

Lemma toggle_twice_witness :
  ∃ p1 p2,
    activeProject (handleToggleFolder [sample_project] 1 sample_state "d2") sample_state
      = Some p1
    ∧ isOpen <$> findNode (project_nodes p1) "d2" = Some (Some true)
    ∧ activeProject
        (handleToggleFolder (handleToggleFolder [sample_project] 1 sample_state "d2") 2
           sample_state "d2") sample_state
      = Some p2
    ∧ isOpen <$> findNode (project_nodes p2) "d2" = Some (Some false)
    ∧ (∀ j, j ≠ "d2" →
            fields <$> findNode (project_nodes p2) j = fields <$> findNode sample_tree j).
Proof.
  exact (toggle_twice [sample_project] 1 2 sample_state "d2" sample_project
           (mkFileNode "d2" "figures" folder None (Some []) None) eq_refl eq_refl eq_refl).
Defined.

(** ** Properties of creating and deleting projects *)

Lemma find_project_none projects pid :
  (∀ q, q ∈ projects → project_id q ≠ pid) →
  List.find (fun q => String.eqb (project_id q) pid) projects = None.
Proof.
  induction projects as [|q l IH]; intros H; simpl; [done|].
  destruct (String.eqb_spec (project_id q) pid) as [Heq|_].
  - by destruct (H q (list_elem_of_here _ _)).
  - apply IH. intros q' Hq'. apply H. by apply list_elem_of_further.
Qed.

(** X8. Creating a project, when no project has the id made from the clock:
    the editor opens on the new project, but no file of it is selected and
    nothing is compiled, since the project is looked for in the list that
    does not hold it yet.  The next compile takes [main.tex] of the new
    project: it stores the blank document, one entry of severity info and
    no asset, and the preview of that content is the greeting between two
    line feeds. *)
Theorem create_then_compile (projects : list Project) (now t : nat) (st : AppState)
    (katex : string → bool → option string) (member_text : string → string)
    (textwidth_percent cm_percent float_text : string → string) :
  (∀ q, q ∈ projects → project_id q ≠ of_nat now) →
  let created := handleCreateProject projects now st in
  let st' := handleRecompile (fst created) t (snd created) in
  snd created
    = mkAppState editor (Some (of_nat now)) (activeFileId st) (isCompiling st) (logs st)
        (compiledContent st) (previewAssets st)
  ∧ activeProject (fst created) (snd created) = Some (new_project now)
  ∧ compiledContent st' = blank_document
  ∧ logs st' = [finished_log t]
  ∧ previewAssets st' = []
  ∧ parseLatexToHtml katex member_text textwidth_percent cm_percent float_text
      (compiledContent st') (previewAssets st')
    = nl +:+ "Hello World" +:+ nl.
Proof.
  intros Hfresh created st'.
  assert (snd created
          = mkAppState editor (Some (of_nat now)) (activeFileId st) (isCompiling st) (logs st)
              (compiledContent st) (previewAssets st)) as Hst.
  { subst created. unfold handleCreateProject, handleOpenProject. simpl.
    by rewrite (find_project_none _ _ Hfresh). }
  assert (activeProject (fst created) (snd created) = Some (new_project now)) as Hact.
  { rewrite Hst. unfold activeProject. simpl. by rewrite String.eqb_refl. }
  assert (compiledContent st' = blank_document ∧ logs st' = [finished_log t]
          ∧ previewAssets st' = []) as (Hc & Hl & Ha).
  { subst st'. unfold handleRecompile. rewrite Hact. by vm_compute. }
  split; [done|]. split; [done|]. split; [done|]. split; [done|]. split; [done|].
  rewrite Hc, Ha. by vm_compute.
Qed.

Lemma create_then_compile_witness :
  let created := handleCreateProject [thesis_project] 41 initial_state in
  let st' := handleRecompile (fst created) 42 (snd created) in
  snd created = mkAppState editor (Some "41") EmptyString false [] EmptyString []
  ∧ activeProject (fst created) (snd created) = Some (new_project 41)
  ∧ compiledContent st' = blank_document
  ∧ logs st' = [finished_log 42]
  ∧ previewAssets st' = []
  ∧ parseLatexToHtml demo_katex demo_member_text of_percent of_percent of_percent (compiledContent st') (previewAssets st')
    = nl +:+ "Hello World" +:+ nl.
Proof.
  apply (create_then_compile [thesis_project] 41 42 initial_state
           demo_katex demo_member_text of_percent of_percent of_percent).
  intros q Hq. apply list_elem_of_singleton in Hq as ->. done.
Defined.

(** X9. Deleting the project that was just added gives back the list as it
    was, when no project of the list has the id of the new one. *)
Theorem delete_after_add (projects : list Project) (p : Project) :
  (∀ q, q ∈ projects → project_id q ≠ project_id p) →
  deleteProject (addProject projects p) (project_id p) = projects.
Proof.
  intros H. unfold deleteProject, addProject. simpl. rewrite String.eqb_refl. simpl.
  induction projects as [|q l IH]; [done|]. simpl.
  destruct (String.eqb_spec (project_id q) (project_id p)) as [Heq|_].
  - by destruct (H q (list_elem_of_here _ _)).
  - simpl. f_equal. apply IH. intros q' Hq'. apply H. by apply list_elem_of_further.
Qed.

Lemma delete_after_add_witness :
  deleteProject (addProject [thesis_project; empty_project] sample_project) "p7"
    = [thesis_project; empty_project].
Proof.
  apply (delete_after_add [thesis_project; empty_project] sample_project).
  intros q Hq. apply elem_of_cons in Hq as [-> | Hq]; [done|].
  apply list_elem_of_singleton in Hq as ->. done.
Defined.

(** X10. Once the open project has been deleted, no project of the list is
    the open one, and a compile changes nothing: no log entry, no content,
    no asset. *)
Theorem compile_after_delete (projects : list Project) (now : nat) (st : AppState)
    (i : string) :
  activeProjectId st = Some i →
  activeProject (deleteProject projects i) st = None
  ∧ handleRecompile (deleteProject projects i) now st = st.
Proof.
  intros Hi.
  assert (activeProject (deleteProject projects i) st = None) as H.
  { unfold activeProject. rewrite Hi. apply find_project_none.
    intros q Hq. unfold deleteProject in Hq. apply list_elem_of_In, filter_In in Hq as [_ Hq].
    by destruct (String.eqb_spec (project_id q) i). }
  split; [done|]. unfold handleRecompile. by rewrite H.
Qed.

Lemma compile_after_delete_witness :
  activeProject (deleteProject [thesis_project; sample_project] "p7") sample_state = None
  ∧ handleRecompile (deleteProject [thesis_project; sample_project] "p7") 3 sample_state
    = sample_state.
Proof.
  apply (compile_after_delete [thesis_project; sample_project] 3 sample_state "p7"). reflexivity.
Defined.

(** X11. [updateProject] keeps the length of the list and the place of every
    project.  When a project has the id of the updated one, looking the id
    up afterwards gives the updated project; when none has, the list is
    unchanged and the update is dropped. *)
Theorem updateProject_replaces (projects : list Project) (u : Project) :
  length (updateProject projects u) = length projects
  ∧ map project_id (updateProject projects u) = map project_id projects
  ∧ match List.find (fun q => String.eqb (project_id q) (project_id u)) projects with
    | Some _ =>
        List.find (fun q => String.eqb (project_id q) (project_id u)) (updateProject projects u)
          = Some u
    | None => updateProject projects u = projects
    end.
Proof.
  unfold updateProject. split; [by rewrite length_map|]. split.
  - rewrite map_map. apply map_ext. intros q.
    by destruct (String.eqb_spec (project_id q) (project_id u)).
  - induction projects as [|q l IH]; [done|]. simpl.
    destruct (String.eqb (project_id q) (project_id u)) eqn:Hq; simpl.
    + by rewrite String.eqb_refl.
    + rewrite Hq. destruct (List.find _ l); [done|]. by rewrite IH.
Qed.

(** ** Properties of a successful compile *)

Lemma obj_set_keys {V} (o : Obj.t V) k v :
  Obj.keys (Obj.set o k v) = if decide (k ∈ Obj.keys o) then Obj.keys o else Obj.keys o ++ [k].
Proof.
  induction o as [|[k0 v0] o IH]; simpl; [done|].
  destruct (String.eqb_spec k0 k) as [->|Hne]; simpl.
  - rewrite decide_True; [done|apply list_elem_of_here].
  - unfold Obj.keys in *. rewrite IH. destruct (decide (k ∈ map fst o)) as [Hin|Hnin].
    + rewrite decide_True; [done|by apply list_elem_of_further].
    + rewrite decide_False; [done|]. intros [?|?]%elem_of_cons; [by subst|done].
Qed.

Lemma obj_set_NoDup {V} (o : Obj.t V) k v :
  NoDup (Obj.keys o) → NoDup (Obj.keys (Obj.set o k v)).
Proof.
  intros H. rewrite obj_set_keys. destruct (decide _) as [?|Hnin]; [done|].
  apply NoDup_app. split; [done|]. split; [|apply NoDup_singleton].
  intros x Hx ->%list_elem_of_singleton. done.
Qed.

Lemma flattenProjectFiles_NoDup n :
  ∀ acc, NoDup (Obj.keys acc) → NoDup (Obj.keys (flattenProjectFiles n acc)).
Proof.
  induction n as [i nm ty c cs o IH] using FileNode_tree_ind. intros acc Hacc.
  destruct ty; simpl; [by apply obj_set_NoDup|].
  destruct cs as [l|]; [|done]. revert acc Hacc.
  induction l as [|x l IHl]; intros acc Hacc; [done|].
  apply Forall_cons in IH as [Hx Hl]. simpl. apply (IHl Hl). by apply Hx.
Qed.

Lemma obj_get_absent {V} (o : Obj.t V) k : k ∉ Obj.keys o → Obj.get o k = None.
Proof.
  induction o as [|[k0 v0] o IH]; simpl; [done|]. intros H.
  destruct (String.eqb_spec k0 k) as [->|_].
  - destruct H. apply list_elem_of_here.
  - apply IH. intros Hin. apply H. by apply list_elem_of_further.
Qed.

(** The assets gathered from the values of a file map whose keys are the
    names of its values, each once. *)
Lemma assets_get (m : Obj.t FileNode) :
  NoDup (Obj.keys m) → (∀ k v, (k, v) ∈ m → k = name v) →
  ∀ acc k,
    Obj.get (fold_left (fun (a : Obj.t string) f =>
                          if truthy (content f) && is_image_name (name f)
                          then Obj.set a (name f) (default EmptyString (content f))
                          else a) (Obj.values m) acc) k
    = match Obj.get m k with
      | Some f => if truthy (content f) && is_image_name (name f)
                  then Some (default EmptyString (content f)) else Obj.get acc k
      | None => Obj.get acc k
      end.
Proof.
  induction m as [|[k0 v0] m IH]; intros Hnd Hkey acc k; simpl; [done|].
  apply NoDup_cons in Hnd as [Hk0 Hnd].
  pose proof (Hkey k0 v0 (list_elem_of_here _ _)) as Hk0v.
  rewrite IH; [|done|intros k' v Hin; apply Hkey; by apply list_elem_of_further].
  destruct (String.eqb_spec k0 k) as [->|Hne].
  - rewrite (obj_get_absent m k Hk0).
    destruct (truthy (content v0) && is_image_name (name v0)); [|done].
    by rewrite obj_get_set, <- Hk0v, String.eqb_refl.
  - destruct (truthy (content v0) && is_image_name (name v0)); [|done].
    rewrite obj_get_set, <- Hk0v. by destruct (String.eqb_spec k0 k).
Qed.

Lemma obj_keys_get {V} (o : Obj.t V) k : k ∈ Obj.keys o → ∃ v, Obj.get o k = Some v.
Proof.
  induction o as [|[k0 v0] o IH]; simpl; [by intros ?%elem_of_nil|].
  intros [->|Hin]%elem_of_cons.
  - rewrite String.eqb_refl. by eexists.
  - destruct (String.eqb k0 k); [by eexists|by apply IH].
Qed.

(** The entries of the asset map after a compile that found its entry file. *)
Lemma assets_of_compile_get projects now st p m k :
  activeProject projects st = Some p →
  find_main p (activeFileId st) = Some m → truthy (content m) = true →
  Obj.get (previewAssets (handleRecompile projects now st)) k
    = match last_named k (root p) with
      | Some f => if truthy (content f) && is_image_name k then content f else None
      | None => None
      end.
Proof.
  intros Hp Hm Hc. unfold handleRecompile. rewrite Hp, Hm, Hc. simpl.
  rewrite assets_get.
  - rewrite flattenProjectFiles_get. destruct (last_named k (root p)) as [f|] eqn:Hf; [|done].
    apply last_named_spec in Hf as (-> & _ & _).
    destruct (content f) as [ [|c s]|]; simpl; by destruct (is_image_name k).
  - by apply flattenProjectFiles_NoDup, NoDup_nil.
  - intros k' v. apply flatten_key_is_name.
Qed.

(** X12. After a compile that found its entry file, every key of the asset
    map is the name of an image, and the asset under the name of an image is
    the content of the last file of that name that the walk of the tree
    reaches, when that file has content; otherwise there is no asset under
    the name.  An image that a later file of the same name without content
    shadows is no asset. *)
Theorem assets_of_compile (projects : list Project) (now : nat) (st : AppState)
    (p : Project) (m : FileNode) :
  activeProject projects st = Some p →
  find_main p (activeFileId st) = Some m → truthy (content m) = true →
  (∀ k, k ∈ Obj.keys (previewAssets (handleRecompile projects now st)) →
        is_image_name k = true)
  ∧ (∀ k, is_image_name k = true →
          Obj.get (previewAssets (handleRecompile projects now st)) k
            = match last_named k (root p) with
              | Some f => if truthy (content f) then content f else None
              | None => None
              end).
Proof.
  intros Hp Hm Hc. split.
  - intros k Hk. apply obj_keys_get in Hk as [v Hv].
    rewrite (assets_of_compile_get _ _ _ p m k Hp Hm Hc) in Hv.
    destruct (last_named k (root p)) as [f|]; [|done].
    destruct (is_image_name k); [done|]. by rewrite andb_false_r in Hv.
  - intros k Hk. rewrite (assets_of_compile_get _ _ _ p m k Hp Hm Hc).
    destruct (last_named k (root p)) as [f|]; [|done]. by rewrite Hk, andb_true_r.
Qed.

Lemma assets_of_compile_witness :
  Obj.keys (previewAssets (handleRecompile [picture_project] 9 picture_state)) = ["plot.PNG"]
  ∧ Obj.get (previewAssets (handleRecompile [picture_project] 9 picture_state)) "plot.PNG"
    = Some "data:image/png;base64,BBBB"
  ∧ Obj.get (previewAssets (handleRecompile [picture_project] 9 picture_state)) "logo.png"
    = None.
Proof.
  destruct (assets_of_compile [picture_project] 9 picture_state picture_project
              (tex "main.tex" "\documentclass{article}\includegraphics{logo}")
              eq_refl eq_refl eq_refl) as [_ Hget].
  split; [reflexivity|]. split.
  - exact (Hget "plot.PNG" eq_refl).
  - exact (Hget "logo.png" eq_refl).
Defined.

(** X13. The entry file of a compile is the last file named [main.tex] that
    the walk of the tree reaches, in whatever folder it lies and whatever
    file is active; that file is compiled even when the active file is
    another LaTeX file. *)
Theorem main_tex_is_entry (p : Project) (a : string) (f : FileNode) :
  last_named "main.tex" (root p) = Some f →
  find_main p a = Some f ∧ name f = "main.tex" ∧ type f = file ∧ f ∈ nodes (root p).
Proof.
  intros H. split; [by apply find_main_last_named|]. by apply last_named_spec in H.
Qed.

Lemma main_tex_is_entry_witness :
  find_main sample_project "intro.tex" = Some (tex "main.tex" "outer")
  ∧ name (tex "main.tex" "outer") = "main.tex"
  ∧ type (tex "main.tex" "outer") = file
  ∧ tex "main.tex" "outer" ∈ nodes (root sample_project).
Proof.
  apply (main_tex_is_entry sample_project "intro.tex" (tex "main.tex" "outer")). reflexivity.
Defined.

(** ** Occurrences of a literal in a text *)

Lemma includes_intro pre p rest : includes (pre +:+ p +:+ rest) p = true.
Proof.
  induction pre as [|c pre IH].
  - rewrite append_nil_l.
    assert (startsWith (p +:+ rest) p = true) as H
      by (unfold startsWith; by rewrite strip_prefix_self).
    destruct (p +:+ rest); simpl; by rewrite H.
  - rewrite append_cons. simpl. rewrite IH. apply orb_true_r.
Qed.

Lemma includes_elim s p : includes s p = true → ∃ pre rest, s = pre +:+ p +:+ rest.
Proof.
  assert (∀ s, startsWith s p = true → ∃ rest, s = p +:+ rest) as Hstart.
  { intros s'. unfold startsWith. destruct (strip_prefix p s') as [rest|] eqn:H; [|done].
    intros _. exists rest. by apply strip_prefix_eq. }
  induction s as [|c s IH]; simpl.
  - rewrite orb_false_r. intros H. destruct (Hstart _ H) as [rest Hr].
    exists EmptyString, rest. by rewrite append_nil_l.
  - intros H. apply orb_true_iff in H as [H|H].
    + destruct (Hstart _ H) as [rest Hr]. exists EmptyString, rest. by rewrite append_nil_l.
    + destruct (IH H) as (pre & rest & ->). exists (String c pre), rest.
      by rewrite append_cons.
Qed.

(** A text that lacks a character of a literal lacks the literal. *)
Lemma includes_char_sub s p c :
  includes s (String c EmptyString) = false →
  includes p (String c EmptyString) = true → includes s p = false.
Proof.
  intros Hs Hp. destruct (includes s p) eqn:H; [|done].
  apply includes_elim in H as (pre & rest & ->).
  apply includes_elim in Hp as (a & b & ->).
  rewrite <- Hs. symmetry.
  replace (pre +:+ (a +:+ String c EmptyString +:+ b) +:+ rest)
    with ((pre +:+ a) +:+ String c EmptyString +:+ (b +:+ rest))
    by (by rewrite !append_assoc).
  apply includes_intro.
Qed.

Lemma includes_char_app a b c :
  includes (a +:+ b) (String c EmptyString)
    = includes a (String c EmptyString) || includes b (String c EmptyString).
Proof.
  induction a as [|x a IH].
  - rewrite append_nil_l. done.
  - rewrite append_cons. simpl. rewrite IH. unfold startsWith. simpl.
    destruct (Ascii.eqb c x); [done|]. done.
Qed.

Lemma avoids_app cs a b : avoids cs (a +:+ b) = avoids cs a && avoids cs b.
Proof.
  unfold avoids. induction cs as [|c cs IH]; [done|]. simpl.
  rewrite IH, includes_char_app, negb_orb.
  destruct (includes a _), (includes b _), (forallb _ cs), (forallb _ cs); done.
Qed.

Lemma avoids_elem cs s c :
  avoids cs s = true → c ∈ cs → includes s (String c EmptyString) = false.
Proof.
  unfold avoids. intros H Hc. apply list_elem_of_In in Hc.
  pose proof (proj1 (forallb_forall _ _) H c Hc) as Hn. by apply negb_true_iff in Hn.
Qed.

Lemma avoids_literal cs s lit :
  avoids cs s = true →
  existsb (fun c => includes lit (String c EmptyString)) cs = true →
  includes s lit = false.
Proof.
  intros Hs Hl. apply existsb_exists in Hl as (c & Hc & Hl).
  apply (includes_char_sub s lit c); [|done].
  apply (avoids_elem cs); [done|by apply list_elem_of_In].
Qed.

(** ** Passes that find nothing *)

Lemma lit_then_no_match lit k s : includes s lit = false → no_match (lit_then lit k) s.
Proof.
  intros H pre suf ->. unfold lit_then.
  destruct (strip_prefix lit suf) as [rest|] eqn:Hp; [|done].
  apply strip_prefix_eq in Hp as ->. by rewrite includes_intro in H.
Qed.

Lemma replace_no_match m cb s : no_match m s → replace m cb s = s.
Proof. intros H. by apply replace_literal, no_match_scan. Qed.

Lemma replace_st_no_match {St : Type} m (cb : St → string → string → string * St) s st :
  no_match m s → replace_st m cb s st = (s, st).
Proof.
  intros H. unfold replace_st. rewrite (no_match_scan m s H).
  induction s as [|c s IH]; simpl; [done|].
  rewrite IH; [done|]. intros pre suf ->. by apply (H (String c pre)).
Qed.

Lemma greplace_no_match {G : Type} (m : string → option (G * string)) cb s :
  (∀ pre suf, s = pre +:+ suf → m suf = None) → greplace m cb s = s.
Proof.
  unfold greplace. induction s as [|c s IH]; intros H; simpl; [done|].
  rewrite (H EmptyString (String c s) eq_refl). simpl. f_equal.
  apply IH. intros pre suf ->. by apply (H (String c pre)).
Qed.

Lemma run_passes_avoids cs (ps : list pass) s :
  Forall (literal_pass cs) ps → avoids cs s = true → run_passes ps s = s.
Proof.
  intros Hps Hs. unfold run_passes. induction Hps as [|[m cb] ps Hp Hps IH]; [done|].
  simpl. destruct Hp as (lit & k & Hm & Hl). simpl in Hm. subst m.
  rewrite replace_no_match; [exact IH|].
  apply lit_then_no_match. by apply (avoids_literal cs).
Qed.

Ltac literal_passes :=
  repeat (constructor; [eexists _, _; split; reflexivity|]); constructor.

Lemma remove_setup_literal : Forall (literal_pass command_chars) remove_setup.
Proof. unfold remove_setup. literal_passes. Qed.

Lemma font_styles_literal : Forall (literal_pass command_chars) font_styles.
Proof. unfold font_styles. literal_passes. Qed.

Lemma font_sizes_literal : Forall (literal_pass command_chars) font_sizes.
Proof. unfold font_sizes. literal_passes. Qed.

Lemma lists_literal : Forall (literal_pass command_chars) lists.
Proof. unfold lists. literal_passes. Qed.

Lemma abstract_block_literal : Forall (literal_pass command_chars) abstract_block.
Proof. unfold abstract_block. literal_passes. Qed.

Lemma special_characters_literal : Forall (literal_pass command_chars) special_characters.
Proof. unfold special_characters. literal_passes. Qed.

Lemma layout_spacing_literal float_text :
  Forall (literal_pass command_chars) (layout_spacing float_text).
Proof. unfold layout_spacing. literal_passes. Qed.

Lemma clean_comments_no_percent s e :
  includes s "%" = false → clean_comments_from e false s = s.
Proof.
  revert e. induction s as [|c s IH]; intros e H; [done|].
  apply includes_char_cons in H as [Hc Hs]. simpl.
  rewrite Ascii.eqb_sym, Hc. simpl. by rewrite IH.
Qed.

Lemma indexOf_none s p : includes s p = false → indexOf s p = None.
Proof.
  induction s as [|c s IH]; simpl.
  - rewrite orb_false_r. by intros ->.
  - intros H. apply orb_false_iff in H as [-> H]. by rewrite IH.
Qed.

Lemma lastIndexOf_none s p : includes s p = false → lastIndexOf s p = None.
Proof.
  induction s as [|c s IH]; simpl.
  - rewrite orb_false_r. by intros ->.
  - intros H. apply orb_false_iff in H as [-> H]. by rewrite IH.
Qed.

Lemma extract_body_no_begin s : includes s "\begin{document}" = false → extract_body s = s.
Proof. intros H. unfold extract_body. by rewrite (indexOf_none _ _ H). Qed.

Lemma extract_body_no_end s : includes s "\end{document}" = false → extract_body s = s.
Proof.
  intros H. unfold extract_body. rewrite (lastIndexOf_none _ _ H).
  by destruct (indexOf s _).
Qed.

Lemma inline_math_no_match s : includes s "$" = false → no_match inline_math_re s.
Proof.
  intros H pre suf ->. destruct suf as [|c suf]; [done|].
  destruct (Ascii.eqb_spec c "$") as [->|Hne].
  - assert (includes (pre +:+ String "$" suf) "$" = true) as H'
      by apply (includes_intro pre "$" suf).
    congruence.
  - unfold inline_math_re. destruct c as [ [] [] [] [] [] [] [] [] ]; try done.
Qed.

Lemma minipage_no_match s :
  includes s "\begin{minipage}{" = false →
  ∀ pre suf, s = pre +:+ suf → minipage_re suf = None.
Proof.
  intros H pre suf ->. unfold minipage_re.
  destruct (strip_prefix _ suf) as [rest|] eqn:Hp; [|done].
  apply strip_prefix_eq in Hp as ->. by rewrite includes_intro in H.
Qed.

(** The blocks between the layout block and the math block find nothing in
    a text that holds no backslash, dash, backquote or apostrophe. *)
Lemma middle_blocks_avoid member_text assets s :
  avoids command_chars s = true →
  run_passes special_characters
    (run_passes abstract_block
       (run_passes lists
          (fst (number_headings
                  (bind_images member_text assets
                     (run_passes font_sizes (run_passes font_styles s)))))))
    = s.
Proof.
  intros Hs.
  assert (∀ lit, existsb (fun c => includes lit (String c EmptyString)) command_chars = true →
                 includes s lit = false) as Hlit by (intros lit; by apply avoids_literal).
  rewrite (run_passes_avoids _ _ _ font_styles_literal Hs).
  rewrite (run_passes_avoids _ _ _ font_sizes_literal Hs).
  unfold bind_images. rewrite replace_no_match by (apply lit_then_no_match; by apply Hlit).
  unfold number_headings.
  rewrite (replace_st_no_match chapter_re) by (apply lit_then_no_match; by apply Hlit).
  rewrite (replace_st_no_match section_re) by (apply lit_then_no_match; by apply Hlit).
  rewrite (replace_st_no_match subsection_re) by (apply lit_then_no_match; by apply Hlit).
  cbn [fst].
  rewrite (run_passes_avoids _ _ _ lists_literal Hs).
  rewrite (run_passes_avoids _ _ _ abstract_block_literal Hs).
  by rewrite (run_passes_avoids _ _ _ special_characters_literal Hs).
Qed.

(** The math block finds nothing in a text without dollar sign and
    backslash. *)
Lemma render_math_avoids katex s :
  includes s "$" = false → includes s "\" = false → render_math katex s = s.
Proof.
  intros Hd Hb. unfold render_math.
  rewrite (replace_no_match inline_math_re) by by apply inline_math_no_match.
  rewrite (replace_no_match display_math_re)
    by (apply lit_then_no_match; by apply (includes_char_sub s "$$" "$")).
  by rewrite (replace_no_match bracket_math_re)
    by (apply lit_then_no_match; by apply (includes_char_sub s "\[" "\")).
Qed.

(** The blocks after the body has been taken out find nothing in a text
    that holds no backslash, dash, backquote, apostrophe or dollar sign. *)
Lemma blocks_avoid katex member_text textwidth_percent cm_percent float_text assets s :
  avoids command_chars s = true → includes s "$" = false →
  render_math katex
    (run_passes special_characters
       (run_passes abstract_block
          (run_passes lists
             (fst (number_headings
                     (bind_images member_text assets
                        (run_passes font_sizes
                           (run_passes font_styles
                              (run_passes (layout_spacing float_text)
                                 (minipages textwidth_percent cm_percent
                                    (run_passes remove_setup s)))))))))))
    = s.
Proof.
  intros Hs Hd.
  rewrite (run_passes_avoids _ _ _ remove_setup_literal Hs).
  unfold minipages. rewrite greplace_no_match
    by (apply minipage_no_match; by apply (avoids_literal command_chars)).
  rewrite (run_passes_avoids _ _ _ (layout_spacing_literal float_text) Hs).
  rewrite (middle_blocks_avoid member_text assets s Hs).
  apply render_math_avoids; [done|]. apply (avoids_elem _ _ _ Hs). set_solver.
Qed.

Lemma parseLatexToHtml_blocks katex member_text textwidth_percent cm_percent float_text code assets :
  parseLatexToHtml katex member_text textwidth_percent cm_percent float_text code assets
    = render_math katex
        (run_passes special_characters
           (run_passes abstract_block
              (run_passes lists
                 (fst (number_headings
                         (bind_images member_text assets
                            (run_passes font_sizes
                               (run_passes font_styles
                                  (run_passes (layout_spacing float_text)
                                     (minipages textwidth_percent cm_percent
                                        (run_passes remove_setup
                                           (extract_body (clean_comments code))))))))))))).
Proof. by destruct code. Qed.

Lemma plain_avoids s :
  plain s = true →
  avoids command_chars s = true ∧ includes s "%" = false ∧ includes s "$" = false.
Proof.
  unfold plain. intros H. apply andb_true_iff in H as [H1 H2]. split; [done|].
  split; apply (avoids_elem _ _ _ H2); set_solver.
Qed.

(** ** Properties of the whole preview *)

(** X14. A text that holds no backslash, percent sign, dollar sign, dash,
    backquote or apostrophe passes through all the blocks of the preview
    unchanged, whatever the assets and the typesetting call. *)
Theorem plain_text_unchanged (katex : string → bool → option string) (member_text : string → string)
    (textwidth_percent cm_percent float_text : string → string)
    (code : string) (assets : Obj.t string) :
  plain code = true →
  parseLatexToHtml katex member_text textwidth_percent cm_percent float_text code assets = code.
Proof.
  intros H. apply plain_avoids in H as (Hs & Hp & Hd).
  rewrite parseLatexToHtml_blocks. unfold clean_comments.
  rewrite (clean_comments_no_percent code false Hp).
  rewrite extract_body_no_begin by by apply (avoids_literal command_chars).
  by apply blocks_avoid.
Qed.

Lemma plain_text_unchanged_witness :
  parseLatexToHtml demo_katex demo_member_text of_percent of_percent of_percent
    "Hello {world}: 1 < 2 & [x]" two_figures
  = "Hello {world}: 1 < 2 & [x]".
Proof.
  apply (plain_text_unchanged demo_katex demo_member_text of_percent of_percent of_percent
           "Hello {world}: 1 < 2 & [x]" two_figures).
  reflexivity.
Defined.

(** ** Properties of the comment block *)

Lemma clean_comments_line_end e ic a rest :
  clean_comments_from e ic (a +:+ nl +:+ rest)
    = clean_comments_from e ic a +:+ nl +:+ clean_comments rest.
Proof.
  revert e ic. induction a as [|c a IH]; intros e ic.
  - rewrite !append_nil_l. destruct ic; reflexivity.
  - rewrite append_cons. simpl.
    destruct ic; [destruct (is_line_terminator c)|destruct (Ascii.eqb c "%" && negb e)];
      by rewrite IH.
Qed.

Lemma clean_comments_in_line e x :
  line_free x = true → clean_comments_from e true x = EmptyString.
Proof.
  revert e. induction x as [|c x IH]; intros e H; [done|].
  unfold line_free in H. simpl in H. apply andb_true_iff in H as [Hc Hx].
  apply negb_true_iff in Hc. simpl. rewrite Hc. by apply IH.
Qed.

Lemma line_free_app a b : line_free (a +:+ b) = line_free a && line_free b.
Proof.
  unfold line_free. induction a as [|c a IH]; [done|].
  rewrite append_cons. simpl. by rewrite IH, andb_assoc.
Qed.

(** A line that begins with a percent sign goes, and the line feeds around
    it stay. *)
Lemma clean_comments_line e ic a x b :
  line_free x = true →
  clean_comments_from e ic (a +:+ nl +:+ "%" +:+ x +:+ nl +:+ b)
    = clean_comments_from e ic a +:+ nl +:+ nl +:+ clean_comments b.
Proof.
  intros Hx. rewrite clean_comments_line_end. do 2 f_equal.
  change (clean_comments ("%" +:+ x +:+ nl +:+ b))
    with (clean_comments_from false true (x +:+ nl +:+ b)).
  by rewrite clean_comments_line_end, clean_comments_in_line.
Qed.

Lemma missing_marker_is_comment a f b :
  line_free f = true →
  clean_comments (a +:+ missing_marker f +:+ b)
    = clean_comments a +:+ nl +:+ nl +:+ clean_comments b.
Proof.
  intros Hf. unfold missing_marker, clean_comments. rewrite !append_assoc.
  apply (clean_comments_line false false a (" Missing file: " +:+ f) b).
  by rewrite line_free_app, Hf.
Qed.

(** X15. The four markers that the resolver writes are comment lines to the
    preview: around a file name without line terminator, each of them is
    reduced to its two line feeds by the comment block, whatever text
    stands before and after. *)
Theorem markers_are_comments (a f b : string) :
  line_free f = true →
  clean_comments (a +:+ loop_marker f +:+ b) = clean_comments a +:+ nl +:+ nl +:+ clean_comments b
  ∧ clean_comments (a +:+ missing_marker f +:+ b)
    = clean_comments a +:+ nl +:+ nl +:+ clean_comments b
  ∧ clean_comments (a +:+ begin_marker f +:+ b)
    = clean_comments a +:+ nl +:+ nl +:+ clean_comments b
  ∧ clean_comments (a +:+ end_marker f +:+ b)
    = clean_comments a +:+ nl +:+ nl +:+ clean_comments b.
Proof.
  intros Hf. unfold loop_marker, missing_marker, begin_marker, end_marker, clean_comments.
  rewrite !append_assoc.
  split; [|split; [|split] ].
  - apply (clean_comments_line false false a (" Recursive loop detected: " +:+ f) b).
    by rewrite line_free_app, Hf.
  - apply (clean_comments_line false false a (" Missing file: " +:+ f) b).
    by rewrite line_free_app, Hf.
  - apply (clean_comments_line false false a (" Begin " +:+ f) b).
    by rewrite line_free_app, Hf.
  - apply (clean_comments_line false false a (" End " +:+ f) b).
    by rewrite line_free_app, Hf.
Qed.

Lemma markers_are_comments_witness :
  clean_comments ("a" +:+ loop_marker "B.tex" +:+ "b") = "a" +:+ nl +:+ nl +:+ "b"
  ∧ clean_comments ("a" +:+ missing_marker "B.tex" +:+ "b") = "a" +:+ nl +:+ nl +:+ "b"
  ∧ clean_comments ("a" +:+ begin_marker "B.tex" +:+ "b") = "a" +:+ nl +:+ nl +:+ "b"
  ∧ clean_comments ("a" +:+ end_marker "B.tex" +:+ "b") = "a" +:+ nl +:+ nl +:+ "b".
Proof. apply (markers_are_comments "a" "B.tex" "b"). reflexivity. Defined.

Lemma line_terminator_chars c :
  is_line_terminator c = true → Ascii.eqb c "%" = false ∧ Ascii.eqb c "\" = false.
Proof.
  unfold is_line_terminator. intros H. apply orb_true_iff in H as [H|H];
    apply Ascii.eqb_eq in H; by subst.
Qed.

Lemma clean_comments_from_idem s :
  ∀ e ic e', (ic = false → e' = e) →
    clean_comments_from e' false (clean_comments_from e ic s) = clean_comments_from e ic s.
Proof.
  induction s as [|c s IH]; intros e ic e' He; [done|]. simpl. destruct ic.
  - destruct (is_line_terminator c) eqn:Hc.
    + destruct (line_terminator_chars c Hc) as [Hp Hb]. simpl. rewrite Hp, Hb. simpl.
      by rewrite IH.
    + by apply IH.
  - rewrite (He eq_refl). destruct (Ascii.eqb c "%" && negb e) eqn:Hc.
    + by apply IH.
    + simpl. rewrite Hc. by rewrite IH.
Qed.

(** X16. The comment block is idempotent: a second run removes nothing from
    the output of the first. *)
Theorem clean_comments_idempotent (s : string) :
  clean_comments (clean_comments s) = clean_comments s.
Proof. by apply clean_comments_from_idem. Qed.

(** ** One match in a text *)

(** One match of an expression that begins with a literal, between a text
    free of the first character of the literal and a text without match. *)
Lemma replace_single c lit k cb a w g rest :
  includes a (String c EmptyString) = false →
  lit_then (String c lit) k (w +:+ rest) = Some (g, rest) → w ≠ EmptyString →
  no_match (lit_then (String c lit) k) rest →
  replace (lit_then (String c lit) k) cb (a +:+ w +:+ rest) = a +:+ cb w g +:+ rest.
Proof.
  intros Ha Hm Hw Hrest. unfold replace.
  rewrite (scan_free_prefix c lit k a _ Ha), (scan_hit _ _ w g rest Hm eq_refl Hw).
  rewrite (no_match_scan _ _ Hrest), foldr_app. simpl.
  assert (foldr (fun p acc => match p with Lit c => String c acc | Hit w g => cb w g +:+ acc end)
            EmptyString (map Lit (list_ascii_of_string rest)) = rest) as ->.
  { clear. induction rest as [|x rest IH]; simpl; [done|]. by rewrite IH. }
  clear. induction a as [|x a IH]; simpl; [done|]. by rewrite IH.
Qed.

(** X17. A directive that names a file the project does not have, between
    two plain texts: the resolver puts the missing-file marker in its place,
    and the preview of the resolved text shows the two texts with two line
    feeds between them.  Nothing tells the reader of the preview that a file
    was not found. *)
Theorem missing_import_is_invisible (r : revision) (fileMap : Obj.t FileNode)
    (katex : string → bool → option string) (member_text : string → string)
    (textwidth_percent cm_percent float_text : string → string)
    (assets : Obj.t string) (a f b : string) :
  plain a = true → plain b = true →
  f ≠ EmptyString → includes f "}" = false → line_free (import_filename f) = true →
  find_file r fileMap (import_filename f) = None →
  resolveLatexImports r (a +:+ ("\input{" +:+ f +:+ "}") +:+ b) fileMap ∅
    = a +:+ missing_marker (import_filename f) +:+ b
  ∧ parseLatexToHtml katex member_text textwidth_percent cm_percent float_text
      (resolveLatexImports r (a +:+ ("\input{" +:+ f +:+ "}") +:+ b) fileMap ∅) assets
    = a +:+ nl +:+ nl +:+ b.
Proof.
  intros Ha Hb Hf Hfree Hline Hfind.
  apply plain_avoids in Ha as (Has & Hap & Had). apply plain_avoids in Hb as (Hbs & Hbp & Hbd).
  assert (includes a "\" = false) as Habs by (apply (avoids_elem _ _ _ Has); set_solver).
  assert (includes b "\" = false) as Hbbs by (apply (avoids_elem _ _ _ Hbs); set_solver).
  assert (resolveLatexImports r (a +:+ ("\input{" +:+ f +:+ "}") +:+ b) fileMap ∅
          = a +:+ missing_marker (import_filename f) +:+ b) as Hres.
  { unfold resolveLatexImports. simpl resolve. unfold import_re.
    rewrite (replace_opt_single "\" _ _ _ a ("\input{" +:+ f +:+ "}") f b
               (missing_marker (import_filename f))); try done.
    - exact (import_re_directive "input" f b (or_introl eq_refl) Hf Hfree).
    - by apply lit_then_no_match.
    - unfold import_cb. rewrite decide_False by set_solver. by rewrite Hfind. }
  split; [done|]. rewrite Hres, parseLatexToHtml_blocks.
  rewrite (missing_marker_is_comment a (import_filename f) b Hline). unfold clean_comments.
  rewrite (clean_comments_no_percent a false Hap), (clean_comments_no_percent b false Hbp).
  assert (avoids command_chars (a +:+ nl +:+ nl +:+ b) = true) as Hs
    by (by rewrite !avoids_app, Has, Hbs).
  assert (includes (a +:+ nl +:+ nl +:+ b) "$" = false) as Hd
    by (by rewrite !includes_char_app, Had, Hbd).
  rewrite extract_body_no_begin by by apply (avoids_literal command_chars).
  by apply blocks_avoid.
Qed.

Lemma missing_import_is_invisible_witness :
  resolveLatexImports ByName ("before " +:+ ("\input{" +:+ "chapters/ch9" +:+ "}") +:+ " after")
    cycle_map ∅
    = "before " +:+ missing_marker "ch9.tex" +:+ " after"
  ∧ parseLatexToHtml demo_katex demo_member_text of_percent of_percent of_percent
      (resolveLatexImports ByName
         ("before " +:+ ("\input{" +:+ "chapters/ch9" +:+ "}") +:+ " after") cycle_map ∅)
      two_figures
    = "before " +:+ nl +:+ nl +:+ " after".
Proof.
  apply (missing_import_is_invisible ByName cycle_map demo_katex demo_member_text of_percent of_percent
           of_percent two_figures "before " "chapters/ch9" " after"); done.
Defined.

(** ** A command that begins like another *)

Lemma includes_free_prefix c lit h t :
  includes h (String c EmptyString) = false →
  includes (h +:+ t) (String c lit) = includes t (String c lit).
Proof.
  induction h as [|x h IH]; intros Hh; [done|].
  apply includes_char_cons in Hh as [Hx Hh]. rewrite append_cons. simpl.
  rewrite (IH Hh). unfold startsWith. simpl. by rewrite Hx.
Qed.

(** In a text with one occurrence of a character, a literal that begins
    with the character can only stand at that occurrence. *)
Lemma includes_one_char c pre rest lit :
  includes pre (String c EmptyString) = false →
  includes rest (String c EmptyString) = false →
  includes (pre +:+ String c rest) (String c lit) = startsWith rest lit.
Proof.
  intros Hpre Hrest. rewrite (includes_free_prefix c lit pre _ Hpre). simpl.
  rewrite (includes_char_sub rest (String c lit) c Hrest).
  - rewrite orb_false_r. unfold startsWith. simpl. by rewrite Ascii.eqb_refl.
  - simpl. unfold startsWith. simpl. by rewrite Ascii.eqb_refl.
Qed.

Lemma run_passes_absent (ps : list pass) s :
  Forall (fun p => ∃ lit k, fst p = lit_then lit k ∧ includes s lit = false) ps →
  run_passes ps s = s.
Proof.
  intros Hps. unfold run_passes. induction Hps as [|[m cb] ps Hp Hps IH]; [done|].
  simpl. destruct Hp as (lit & k & Hm & Hl). simpl in Hm. subst m.
  rewrite replace_no_match; [exact IH|]. by apply lit_then_no_match.
Qed.

Lemma run_passes_cons p ps s :
  run_passes (p :: ps) s = run_passes ps (replace (fst p) (snd p) s).
Proof. reflexivity. Qed.

Lemma run_passes_nil s : run_passes [] s = s.
Proof. reflexivity. Qed.

Lemma run_passes_app ps1 ps2 s :
  run_passes (ps1 ++ ps2) s = run_passes ps2 (run_passes ps1 s).
Proof. unfold run_passes. by rewrite fold_left_app. Qed.

Lemma append_nil_r s : s +:+ EmptyString = s.
Proof. induction s as [|x s IH]; [done|]. by rewrite append_cons, IH. Qed.

Lemma inline_math_single cb body :
  body ≠ EmptyString → includes body "$" = false →
  replace inline_math_re cb ("$" +:+ body +:+ "$") = cb ("$" +:+ body +:+ "$") body.
Proof.
  intros Hne Hfree. unfold replace.
  rewrite (scan_hit inline_math_re _ ("$" +:+ body +:+ "$") body EmptyString).
  - simpl. apply append_nil_r.
  - change ("$" +:+ body +:+ "$") with (String "$" (body +:+ String "$" EmptyString)).
    unfold inline_math_re. rewrite (span_not_free "$" body EmptyString Hfree). by destruct body.
  - by rewrite append_nil_r.
  - done.
Qed.

(** X18. The pass that turns [\par] into two line breaks runs over the whole
    text before the math block, and it matches the first four characters of
    [\partial]: for an inline formula that begins with [\partial], the
    typesetting call receives the line breaks and [tial] in place of the
    command, and what it returns for that is the preview. *)
Theorem par_pass_breaks_partial (katex : string → bool → option string) (member_text : string → string)
    (textwidth_percent cm_percent float_text : string → string)
    (assets : Obj.t string) (e : string) :
  plain e = true →
  let typeset :=
    inline_math_cb katex ("$<br/><br/>tial " +:+ e +:+ "$") ("<br/><br/>tial " +:+ e) in
  includes typeset "$" = false → includes typeset "\" = false →
  parseLatexToHtml katex member_text textwidth_percent cm_percent float_text
    ("$\partial " +:+ e +:+ "$") assets
  = typeset.
Proof.
  intros He typeset Hd Hb. apply plain_avoids in He as (Hes & Hep & Hed).
  assert (includes e "\" = false) as Heb by (apply (avoids_elem _ _ _ Hes); set_solver).
  rewrite parseLatexToHtml_blocks.
  (* the comment block and the body block *)
  unfold clean_comments. rewrite clean_comments_no_percent
    by (by rewrite !includes_char_app, Hep).
  assert (includes ("partial " +:+ e +:+ "$") "\" = false) as Hrest
    by (by rewrite !includes_char_app, Heb).
  assert (∀ lit, startsWith ("partial " +:+ e +:+ "$") lit = false →
                 includes ("$\partial " +:+ e +:+ "$") (String "\" lit) = false) as Hlit.
  { intros lit Hl.
    change ("$\partial " +:+ e +:+ "$") with ("$" +:+ String "\" ("partial " +:+ e +:+ "$")).
    by rewrite includes_one_char. }
  rewrite extract_body_no_begin by by apply Hlit.
  (* the set-up block, the minipages, and the layout block up to [\par] *)
  rewrite (run_passes_absent remove_setup)
    by (unfold remove_setup;
        repeat (constructor; [eexists _, _; split; [reflexivity|by apply Hlit] |]);
        constructor).
  unfold minipages. rewrite greplace_no_match by (apply minipage_no_match; by apply Hlit).
  change (layout_spacing float_text)
    with (firstn 5 (layout_spacing float_text) ++ skipn 5 (layout_spacing float_text)).
  rewrite run_passes_app.
  rewrite (run_passes_absent (firstn 5 _))
    by (unfold layout_spacing; simpl firstn;
        repeat (constructor; [eexists _, _; split; [reflexivity|by apply Hlit] |]);
        constructor).
  unfold layout_spacing. cbn [skipn]. rewrite !run_passes_cons, run_passes_nil. cbn [fst snd].
  (* the pass of [\par] *)
  change ("$\partial " +:+ e +:+ "$") with ("$" +:+ "\par" +:+ ("tial " +:+ e +:+ "$")).
  unfold word at 1.
  rewrite (replace_single "\" "par" eps _ "$" "\par" EmptyString ("tial " +:+ e +:+ "$")).
  2: done.
  2: { unfold lit_then. by rewrite strip_prefix_self. }
  2: done.
  2: { apply lit_then_no_match. apply (includes_char_sub _ _ "\"); [|done].
       by rewrite !includes_char_app, Heb. }
  change ("$" +:+ constant "<br/><br/>" "\par" EmptyString +:+ "tial " +:+ e +:+ "$")
    with ("$<br/><br/>tial " +:+ e +:+ "$").
  (* the blocks up to the math block find nothing *)
  assert (avoids command_chars ("$<br/><br/>tial " +:+ e +:+ "$") = true) as Hs
    by (by rewrite !avoids_app, Hes).
  rewrite (replace_no_match (word "\\"))
    by (apply lit_then_no_match; by apply (avoids_literal command_chars)).
  rewrite (middle_blocks_avoid member_text assets _ Hs).
  (* the math block *)
  unfold render_math.
  change ("$<br/><br/>tial " +:+ e +:+ "$") with ("$" +:+ ("<br/><br/>tial " +:+ e) +:+ "$").
  rewrite inline_math_single; [|done|by rewrite includes_char_app, Hed].
  fold typeset.
  rewrite (replace_no_match display_math_re)
    by (apply lit_then_no_match; by apply (includes_char_sub typeset "$$" "$")).
  by rewrite (replace_no_match bracket_math_re)
    by (apply lit_then_no_match; by apply (includes_char_sub typeset "\[" "\")).
Qed.

Lemma par_pass_breaks_partial_witness :
  parseLatexToHtml demo_katex demo_member_text of_percent of_percent of_percent "$\partial f$" two_figures
  = "<katex><br/><br/>tial f</katex>".
Proof.
  apply (par_pass_breaks_partial demo_katex demo_member_text of_percent of_percent of_percent two_figures "f");
    reflexivity.
Defined.

(** ** Properties of the body block *)

Lemma startsWith_overlap p pre c tail :
  startsWith (pre +:+ String c tail) p = true →
  startsWith pre p = true ∨ ∃ q, p = pre +:+ String c q.
Proof.
  unfold startsWith. revert pre. induction p as [|x p IH]; intros pre; [by left|].
  destruct pre as [|y pre].
  - rewrite append_nil_l. simpl. destruct (Ascii.eqb_spec x c) as [->|]; [|done].
    intros _. right. by exists p.
  - rewrite append_cons. simpl. destruct (Ascii.eqb_spec x y) as [->|]; [|done].
    intros H. destruct (IH pre H) as [Hl | [q ->] ]; [by left|].
    right. by exists q.
Qed.

Lemma includes_startsWith s p : startsWith s p = true → includes s p = true.
Proof. intros H. destruct s; simpl; by rewrite H. Qed.

Lemma includes_head c s : includes (String c s) (String c EmptyString) = true.
Proof. simpl. unfold startsWith. simpl. by rewrite Ascii.eqb_refl. Qed.

(** The first occurrence of a literal whose first character does not come
    back in it. *)
Lemma indexOf_app c lit pre rest :
  includes lit (String c EmptyString) = false →
  includes pre (String c lit) = false →
  indexOf (pre +:+ String c lit +:+ rest) (String c lit) = Some (String.length pre).
Proof.
  intros Hlit. induction pre as [|x pre IH]; intros Hpre.
  - rewrite append_nil_l.
    assert (startsWith (String c lit +:+ rest) (String c lit) = true) as H
      by (unfold startsWith; by rewrite strip_prefix_self).
    rewrite append_cons in *. simpl. by rewrite H.
  - simpl in Hpre. apply orb_false_iff in Hpre as [Hstart Hpre].
    rewrite append_cons. simpl.
    destruct (startsWith (String x (pre +:+ String c lit +:+ rest)) (String c lit)) eqn:Hs.
    + exfalso. rewrite append_cons in Hs.
      destruct (startsWith_overlap (String c lit) (String x pre) c (lit +:+ rest) Hs)
        as [Hl | [q Hq] ]; [congruence|].
      rewrite append_cons in Hq. injection Hq as _ ->.
      assert (includes (pre +:+ String c q) (String c EmptyString) = true) as Hin
        by apply (includes_intro pre (String c EmptyString) q).
      congruence.
    + by rewrite (IH Hpre).
Qed.

(** The last occurrence of such a literal. *)
Lemma lastIndexOf_app c lit pre post :
  includes lit (String c EmptyString) = false →
  includes post (String c lit) = false →
  lastIndexOf (pre +:+ String c lit +:+ post) (String c lit) = Some (String.length pre).
Proof.
  intros Hlit Hpost. induction pre as [|x pre IH].
  - rewrite append_nil_l, append_cons. simpl.
    rewrite lastIndexOf_none by (by rewrite includes_free_prefix).
    assert (startsWith (String c (lit +:+ post)) (String c lit) = true) as ->; [|done].
    unfold startsWith. simpl. by rewrite Ascii.eqb_refl, strip_prefix_self.
  - rewrite append_cons. simpl. by rewrite IH.
Qed.

Lemma substring_middle pre mid post :
  substring (String.length pre) (String.length mid) (pre +:+ mid +:+ post) = mid.
Proof.
  induction pre as [|x pre IH]; [rewrite append_nil_l; apply substring_prefix|].
  rewrite append_cons. simpl. apply IH.
Qed.

Lemma js_substring_middle pre mid post :
  js_substring (pre +:+ mid +:+ post) (String.length pre)
    (String.length pre + String.length mid) = mid.
Proof.
  unfold js_substring. rewrite !length_append.
  rewrite (Nat.min_l (String.length pre)) by lia.
  rewrite (Nat.min_l (String.length pre + String.length mid)) by lia.
  rewrite Nat.min_l, Nat.max_r by lia.
  replace (String.length pre + String.length mid - String.length pre)
    with (String.length mid) by lia.
  apply substring_middle.
Qed.

Lemma js_substring_swap s a b : js_substring s a b = js_substring s b a.
Proof. unfold js_substring. by rewrite Nat.min_comm, Nat.max_comm. Qed.

(** X19. A text with the two markers of the document environment in order:
    when [\begin{document}] does not occur before the one that is named and
    [\end{document}] does not occur after the one that is named, the body
    block returns exactly what stands between the two, whatever the
    preamble, the body (further markers included) and the text after the
    end. *)
Theorem body_between_markers (pre body post : string) :
  includes pre "\begin{document}" = false → includes post "\end{document}" = false →
  extract_body (pre +:+ "\begin{document}" +:+ body +:+ "\end{document}" +:+ post) = body.
Proof.
  intros Hpre Hpost. unfold extract_body.
  rewrite (indexOf_app "\" "begin{document}" pre _ eq_refl Hpre).
  replace (pre +:+ "\begin{document}" +:+ body +:+ "\end{document}" +:+ post)
    with ((pre +:+ "\begin{document}" +:+ body) +:+ "\end{document}" +:+ post)
    by (by rewrite !append_assoc).
  rewrite (lastIndexOf_app "\" "end{document}" _ post eq_refl Hpost).
  replace ((pre +:+ "\begin{document}" +:+ body) +:+ "\end{document}" +:+ post)
    with ((pre +:+ "\begin{document}") +:+ body +:+ ("\end{document}" +:+ post))
    by (by rewrite !append_assoc).
  replace (String.length pre + 16) with (String.length (pre +:+ "\begin{document}"))
    by (by rewrite length_append).
  replace (String.length (pre +:+ "\begin{document}" +:+ body))
    with (String.length (pre +:+ "\begin{document}") + String.length body)
    by (by rewrite <- length_append, append_assoc).
  apply js_substring_middle.
Qed.

Lemma body_between_markers_witness :
  extract_body
    ("\documentclass{article}" +:+ "\begin{document}" +:+ "Hello \end{document} again"
       +:+ "\end{document}" +:+ " trailing")
  = "Hello \end{document} again".
Proof.
  apply (body_between_markers "\documentclass{article}" "Hello \end{document} again"
           " trailing"); reflexivity.
Defined.

(** X20. A text that lacks one of the two markers is left whole by the body
    block: nothing is cut off when only [\begin{document}] or only
    [\end{document}] is there. *)
Theorem body_without_marker (s : string) :
  includes s "\begin{document}" = false ∨ includes s "\end{document}" = false →
  extract_body s = s.
Proof. intros [H|H]; [by apply extract_body_no_begin|by apply extract_body_no_end]. Qed.

Lemma body_without_marker_witness :
  extract_body "\begin{document} no end" = "\begin{document} no end".
Proof. apply (body_without_marker "\begin{document} no end"). by right. Defined.

(** X21. When the only [\end{document}] stands before the only
    [\begin{document}], the two bounds of the [substring] call are taken in
    increasing order: the block returns the two markers and what is between
    them, and drops the text after [\begin{document}]. *)
Theorem body_with_markers_reversed (pre mid post : string) :
  includes (pre +:+ "\end{document}" +:+ mid) "\begin{document}" = false →
  includes (mid +:+ "\begin{document}" +:+ post) "\end{document}" = false →
  extract_body (pre +:+ "\end{document}" +:+ mid +:+ "\begin{document}" +:+ post)
    = "\end{document}" +:+ mid +:+ "\begin{document}".
Proof.
  intros Hpre Hpost. unfold extract_body.
  rewrite (lastIndexOf_app "\" "end{document}" pre _ eq_refl Hpost).
  replace (pre +:+ "\end{document}" +:+ mid +:+ "\begin{document}" +:+ post)
    with ((pre +:+ "\end{document}" +:+ mid) +:+ "\begin{document}" +:+ post)
    by (by rewrite !append_assoc).
  rewrite (indexOf_app "\" "begin{document}" _ post eq_refl Hpre).
  replace ((pre +:+ "\end{document}" +:+ mid) +:+ "\begin{document}" +:+ post)
    with (pre +:+ ("\end{document}" +:+ mid +:+ "\begin{document}") +:+ post)
    by (by rewrite !append_assoc).
  rewrite js_substring_swap.
  replace (String.length (pre +:+ "\end{document}" +:+ mid) + 16)
    with (String.length pre + String.length ("\end{document}" +:+ mid +:+ "\begin{document}"))
    by (rewrite !length_append; simpl; lia).
  apply js_substring_middle.
Qed.

Lemma body_with_markers_reversed_witness :
  extract_body ("a" +:+ "\end{document}" +:+ "x" +:+ "\begin{document}" +:+ "the text")
  = "\end{document}" +:+ "x" +:+ "\begin{document}".
Proof. apply (body_with_markers_reversed "a" "x" "the text"); reflexivity. Defined.

(** ** A title with an asterisk *)

Lemma scan_from_hit m skip s w g :
  Hit w g ∈ scan_from m skip s →
  ∃ suf rest, m suf = Some (g, rest)
              ∧ w = substring 0 (String.length suf - String.length rest) suf.
Proof.
  revert skip. induction s as [|c s IH]; intros skip; simpl; [by intros ?%elem_of_nil|].
  destruct skip as [|k]; [|apply IH].
  destruct (m (String c s)) as [ [g' rest]|] eqn:Hm.
  - intros [Heq|Hin]%elem_of_cons; [|by apply (IH _ Hin)].
    injection Heq as -> ->. by exists (String c s), rest.
  - intros [Heq|Hin]%elem_of_cons; [done|by apply (IH _ Hin)].
Qed.

Lemma calls_hits {St : Type} (cb : St → string → string → string * St) ps :
  ∀ st0 st w g, (st, w, g) ∈ calls cb ps st0 → Hit w g ∈ ps.
Proof.
  induction ps as [|[c|w' g'] ps IH]; simpl; intros st0 st w g H.
  - by apply elem_of_nil in H.
  - apply list_elem_of_further. by apply (IH st0 st).
  - apply elem_of_cons in H as [ [= -> -> ->]|H]; [apply list_elem_of_here|].
    apply list_elem_of_further. by eapply IH.
Qed.

Lemma brace_group_shape s g rest :
  brace_group s = Some (g, rest) → s = "{" +:+ g +:+ "}" +:+ rest.
Proof.
  unfold brace_group. destruct s as [|c s]; [done|].
  destruct (Ascii.eqb_spec c "{") as [->|Hne].
  - destruct (span_not "}" s) as [a b] eqn:Hs.
    destruct a as [|x a]; [done|]. destruct b as [|y b]; [done|].
    intros [= <- <-]. destruct (span_not_stop _ _ _ _ Hs) as [_ [?|[b' [= -> ->] ] ] ];
      [done|].
    apply span_not_eq in Hs as ->. by rewrite !append_cons.
  - intros H. exfalso. revert H. destruct c as [ [] [] [] [] [] [] [] [] ]; try done.
Qed.

(** The match of a heading expression holds the title. *)
Lemma heading_match_holds_title directive text w g :
  Hit w g ∈ scan (heading_re directive) text →
  ∃ star, w = directive +:+ star +:+ "{" +:+ g +:+ "}".
Proof.
  intros H. apply scan_from_hit in H as (suf & rest & Hm & ->).
  assert (∃ star, suf = (directive +:+ star +:+ "{" +:+ g +:+ "}") +:+ rest) as [star ->].
  { revert Hm. unfold heading_re, lit_then, alt.
    destruct (strip_prefix directive suf) as [s1|] eqn:H1; cbn [mbind option_bind]; [|done].
    apply strip_prefix_eq in H1 as ->.
    destruct (strip_prefix "*" s1) as [s2|] eqn:H2; cbn [mbind option_bind].
    - destruct (brace_group s2) as [ [g' r']|] eqn:Hb.
      + intros [= -> ->]. apply strip_prefix_eq in H2 as ->.
        apply brace_group_shape in Hb as ->. exists "*". by rewrite !append_assoc.
      + intros Hb'. apply brace_group_shape in Hb' as ->. exists EmptyString.
        by rewrite !append_assoc.
    - intros Hb. apply brace_group_shape in Hb as ->. exists EmptyString.
      by rewrite !append_assoc. }
  exists star. rewrite length_append.
  replace (String.length (directive +:+ star +:+ "{" +:+ g +:+ "}") + String.length rest
           - String.length rest)
    with (String.length (directive +:+ star +:+ "{" +:+ g +:+ "}")) by lia.
  apply substring_prefix.
Qed.

Lemma heading_match_star directive text w g :
  Hit w g ∈ scan (heading_re directive) text →
  includes g "*" = true → includes w "*" = true.
Proof.
  intros H Hg. apply heading_match_holds_title in H as [star ->].
  apply includes_elim in Hg as (a & b & ->).
  replace (directive +:+ star +:+ "{" +:+ (a +:+ "*" +:+ b) +:+ "}")
    with ((directive +:+ star +:+ "{" +:+ a) +:+ "*" +:+ (b +:+ "}"))
    by (by rewrite !append_assoc).
  apply includes_intro.
Qed.

(** X22. A heading whose title holds an asterisk is taken for a starred one,
    at any of the three levels and in any text: the test for the star looks
    at the whole match, title included.  Such a heading gets no number, and
    it leaves the three counters as they were, so that the next heading of
    its level takes the number it would have had. *)
Theorem star_in_title_unnumbered (code : string) (lvl : level) (st : SectionCounters)
    (mtch title : string) :
  (st, mtch, title) ∈ heading_calls lvl code →
  includes title "*" = true →
  heading_cb lvl st mtch title = (heading_html lvl EmptyString title, st).
Proof.
  unfold heading_calls. intros Hin Htitle.
  destruct (calls_invariant (fun st => sectionCount st = 0 ∧ subsectionCount st = 0)
              chapter_cb (scan chapter_re code)
              ltac:(by intros ? ? ? [_ ?]) no_headings ltac:(done)) as [Hc1 Hf1].
  destruct (replace_pieces chapter_cb (scan chapter_re code) no_headings) as [s1 st1].
  destruct (calls_invariant (fun st => subsectionCount st = 0)
              section_cb (scan section_re s1)
              ltac:(done) st1 ltac:(by destruct Hf1)) as [Hc2 _].
  destruct (replace_pieces section_cb (scan section_re s1) st1) as [s2 st2].
  destruct lvl; simpl.
  - pose proof (heading_match_star _ _ _ _ (calls_hits _ _ _ _ _ _ Hin) Htitle) as Hinc.
    destruct (Hc1 _ _ _ Hin) as [Hs _]. destruct st as [ch sec sub]. simpl in Hs.
    unfold chapter_cb. rewrite Hinc. simpl. by subst.
  - pose proof (heading_match_star _ _ _ _ (calls_hits _ _ _ _ _ _ Hin) Htitle) as Hinc.
    pose proof (Hc2 _ _ _ Hin) as Hs. destruct st as [ch sec sub]. simpl in Hs.
    unfold section_cb. rewrite Hinc. simpl. by subst.
  - pose proof (heading_match_star _ _ _ _ (calls_hits _ _ _ _ _ _ Hin) Htitle) as Hinc.
    destruct st as [ch sec sub]. unfold subsection_cb. by rewrite Hinc.
Qed.

Lemma star_in_title_unnumbered_witness :
  heading_cb Section (mkCounters 0 1 0) "\section{C*-algebras}" "C*-algebras"
    = (h2 EmptyString "C*-algebras", mkCounters 0 1 0).
Proof.
  apply (star_in_title_unnumbered "\section{Rings}\section{C*-algebras}\section{Fields}"
           Section (mkCounters 0 1 0) "\section{C*-algebras}" "C*-algebras").
  - vm_compute. apply list_elem_of_further, list_elem_of_here.
  - reflexivity.
Defined.

(** The heading after a title with an asterisk takes the number that the
    title would have had. *)
Example star_in_title_output :
  fst (number_headings "\section{Rings}\section{C*-algebras}\section{Fields}")
    = h2 "1 " "Rings" +:+ h2 EmptyString "C*-algebras" +:+ h2 "2 " "Fields".
Proof. by vm_compute. Qed.

